(** * Snowflake ID generator: layout registry, generator state machine, codec

    A shallow embedding of [snowflake.go] (package [snowflake]) and the
    properties its specification states about it.

    Conventions of the embedding:
    - Go's [uint8], [uint64] and [int64] values are integers in [Z]; every
      operation that can leave the type's range has its wrap-around written
      out ([wrap8], [wrap64], [wrapInt64]).
    - [time.Duration] is an [int64] count of nanoseconds; [time.Time] is the
      number of nanoseconds since the Unix epoch (UTC).
    - The wall clock is the only input of [NextID].  A call observes it
      through [time.Since(layout.Epoch)]; the successive values returned by
      that expression are given as a list of durations, consumed one per
      reading.  A call that is still polling when the list is exhausted has
      not returned: its outcome is [Blocked].
    - The mutex serialises the calls on one generator, so a run of a
      generator is a sequence of whole calls. *)

From Stdlib Require Import ZArith List Lia Bool Sorted.
Import ListNotations.

Local Open Scope Z_scope.

(** ** Machine integers *)

Module Int.

Definition wrap8 (z : Z) : Z := z mod 2 ^ 8.
Definition wrap64 (z : Z) : Z := z mod 2 ^ 64.

(** Conversion to [int64] (two's complement). *)
Definition wrapInt64 (z : Z) : Z := (z + 2 ^ 63) mod 2 ^ 64 - 2 ^ 63.

Definition is_uint8 (z : Z) : Prop := 0 <= z < 2 ^ 8.
Definition is_uint64 (z : Z) : Prop := 0 <= z < 2 ^ 64.
Definition is_int64 (z : Z) : Prop := - 2 ^ 63 <= z < 2 ^ 63.

(** [x << s] on [uint64]: bits shifted past bit 63 are lost. *)
Definition shl64 (x s : Z) : Z := wrap64 (Z.shiftl x s).

(** [x >> s] on [uint64]. *)
Definition shr64 (x s : Z) : Z := Z.shiftr x s.

(** [a + b] on [uint8]. *)
Definition add8 (a b : Z) : Z := wrap8 (a + b).

(** [a * b] on [int64]. *)
Definition mulInt64 (a b : Z) : Z := wrapInt64 (a * b).

(** [a / b] on [int64]: Go's division truncates toward zero. *)
Definition divInt64 (a b : Z) : Z := wrapInt64 (Z.quot a b).

End Int.

Import Int.

(** ** The parts of package [time] the generator uses *)

Module Time.

(** [time.Duration]: nanoseconds, [int64]. *)
Definition Duration := Z.

Definition Nanosecond : Duration := 1.
Definition Microsecond : Duration := 1000 * Nanosecond.
Definition Millisecond : Duration := 1000 * Microsecond.
Definition Second : Duration := 1000 * Millisecond.

(** [time.Time]: nanoseconds since 1970-01-01T00:00:00Z. *)
Definition Time := Z.

(** Days between 1970-01-01 and the given proleptic Gregorian date, for
    [1 <= m <= 12] and a day of that month. *)
Definition daysFromCivil (y m d : Z) : Z :=
  let y' := if m <=? 2 then y - 1 else y in
  let era := y' / 400 in
  let yoe := y' - era * 400 in
  let mp := if m <=? 2 then m + 9 else m - 3 in
  let doy := (153 * mp + 2) / 5 + d - 1 in
  let doe := yoe * 365 + yoe / 4 - yoe / 100 + doy in
  era * 146097 + doe - 719468.

(** [time.Date(y, m, d, hh, mm, ss, ns, time.UTC)] for in-range fields. *)
Definition Date (y m d hh mm ss ns : Z) : Time :=
  (((daysFromCivil y m d * 24 + hh) * 60 + mm) * 60 + ss) * Second + ns.

(** [t.Add(d)]: the representable range of [time.Time] (63-bit seconds)
    is far from every instant an [int64] duration away from a date of this
    millennium, so the sum is exact. *)
Definition Add (t : Time) (d : Duration) : Time := t + d.

End Time.

(** ** Data model *)

(** [type Version uint8]. *)
Definition Version := Z.

Definition Version0 : Version := 0.

Inductive error : Type :=
| ErrInvalidNodeID
| ErrInvalidVersion
| ErrClockRollback
| ErrSequenceExhausted
| ErrTimestampOverflow.
(* The last one is the anonymous
   [errors.New("timestamp overflow for version")] of [NextID];
   [fmt.Errorf("%w: ...", Err...)] is identified with the error it wraps. *)

Inductive result (A : Type) : Type :=
| Ok (a : A)
| Err (e : error).

Arguments Ok {A} a.
Arguments Err {A} e.

Record VersionLayout : Type := mkLayout {
  LVersion : Version;
  VersionBits : Z;
  TimeBits : Z;
  NodeBits : Z;
  SequenceBits : Z;
  TimeUnit : Time.Duration;
  Epoch : Time.Time;
  MaxNodeID : Z;
  MaxSequence : Z;
  MaxTimestamp : Z
}.

Definition layout0 : VersionLayout := {|
  LVersion := Version0;
  VersionBits := 3;
  TimeBits := 45;
  NodeBits := 8;
  SequenceBits := 8;
  TimeUnit := Time.Millisecond;
  Epoch := Time.Date 2026 1 1 0 0 0 0;
  MaxNodeID := Z.shiftl 1 8 - 1;
  MaxSequence := Z.shiftl 1 8 - 1;
  MaxTimestamp := Z.shiftl 1 45 - 1
|}.

(** [var versionLayouts = map[Version]*VersionLayout{...}]: the entries of
    the map literal, and the map read [versionLayouts[v]]. *)
Definition versionLayoutsEntries : list (Version * VersionLayout) :=
  [ (Version0, layout0) ].

Fixpoint lookupLayout (m : list (Version * VersionLayout)) (v : Version)
  : option VersionLayout :=
  match m with
  | [] => None
  | (k, l) :: m' => if k =? v then Some l else lookupLayout m' v
  end.

Definition versionLayouts (v : Version) : option VersionLayout :=
  lookupLayout versionLayoutsEntries v.

Record Config : Type := mkConfig {
  CVersion : Version;
  CNodeID : Z
}.

(** The generator without its mutex. *)
Record Generator : Type := mkGenerator {
  layout : VersionLayout;
  nodeID : Z;
  lastTimestamp : Z;
  sequence : Z;
  versionShift : Z;
  timeShift : Z;
  nodeShift : Z
}.

Record DecodedID : Type := mkDecoded {
  DVersion : Version;
  DTimestamp : Z;
  DNodeID : Z;
  DSequence : Z;
  DTime : Time.Time
}.

(** ** Operations *)

Definition NewGenerator (cfg : Config) : result Generator :=
  match versionLayouts (CVersion cfg) with
  | None => Err ErrInvalidVersion
  | Some layout =>
    if CNodeID cfg >? MaxNodeID layout then Err ErrInvalidNodeID
    else
      let sequenceBits := SequenceBits layout in
      let nodeBits := NodeBits layout in
      let timeBits := TimeBits layout in
      Ok {| layout := layout;
            nodeID := CNodeID cfg;
            lastTimestamp := 0;
            sequence := 0;
            versionShift := add8 (add8 sequenceBits nodeBits) timeBits;
            timeShift := add8 sequenceBits nodeBits;
            nodeShift := sequenceBits |}
  end.

(** [currentTimestamp], given the value [elapsed] of
    [time.Since(g.layout.Epoch)]: an [int64] division followed by the
    conversion to [uint64]. *)
Definition currentTimestamp (g : Generator) (elapsed : Time.Duration) : Z :=
  wrap64 (divInt64 elapsed (TimeUnit (layout g))).

(** The clock: the durations the successive readings of
    [time.Since(g.layout.Epoch)] return. *)
Definition Clock := list Time.Duration.

(** The rollback loop of [NextID]:
    [for timestamp < g.lastTimestamp { sleep; timestamp = currentTimestamp() }].
    [None]: still looping when the readings run out. *)
Fixpoint waitRollback (g : Generator) (timestamp : Z) (clock : Clock)
  : option (Z * Clock) :=
  if timestamp <? lastTimestamp g then
    match clock with
    | [] => None
    | elapsed :: clock' => waitRollback g (currentTimestamp g elapsed) clock'
    end
  else Some (timestamp, clock).

(** [waitNextTimestamp]: one reading, then re-read while
    [timestamp <= lastTimestamp]. *)
Fixpoint waitNextTimestamp (g : Generator) (last : Z) (clock : Clock)
  : option (Z * Clock) :=
  match clock with
  | [] => None
  | elapsed :: clock' =>
    let timestamp := currentTimestamp g elapsed in
    if timestamp <=? last then waitNextTimestamp g last clock'
    else Some (timestamp, clock')
  end.

Definition setSequence (g : Generator) (s : Z) : Generator :=
  {| layout := layout g; nodeID := nodeID g;
     lastTimestamp := lastTimestamp g; sequence := s;
     versionShift := versionShift g; timeShift := timeShift g;
     nodeShift := nodeShift g |}.

Definition setLastTimestamp (g : Generator) (t : Z) : Generator :=
  {| layout := layout g; nodeID := nodeID g;
     lastTimestamp := t; sequence := sequence g;
     versionShift := versionShift g; timeShift := timeShift g;
     nodeShift := nodeShift g |}.

(** The encoding expression at the end of [NextID]. *)
Definition encodeID (g : Generator) (timestamp : Z) : Z :=
  Z.lor (Z.lor (Z.lor (shl64 (LVersion (layout g)) (versionShift g))
                      (shl64 timestamp (timeShift g)))
               (shl64 (nodeID g) (nodeShift g)))
        (sequence g).

(** What a call of [NextID] does: it returns an ID, returns an error, or
    is still waiting for the clock when the readings run out.  The first
    two carry the generator as the call leaves it and the readings not yet
    consumed. *)
Inductive outcome : Type :=
| Returned (id : Z) (g' : Generator) (rest : Clock)
| Failed (e : error) (g' : Generator) (rest : Clock)
| Blocked.

(** The tail of [NextID]: [g.lastTimestamp = timestamp], encode, return. *)
Definition emit (g : Generator) (timestamp : Z) (rest : Clock) : outcome :=
  let g' := setLastTimestamp g timestamp in
  Returned (encodeID g' timestamp) g' rest.

(** The second half of [NextID], from the comparison of the tick with
    [g.lastTimestamp] to the return. *)
Definition assignSequence (g : Generator) (timestamp : Z) (clock : Clock)
  : outcome :=
  if timestamp =? lastTimestamp g then
    let g1 :=
      setSequence g (Z.land (wrap64 (sequence g + 1))
                            (MaxSequence (layout g))) in
    if sequence g1 =? 0 then
      match waitNextTimestamp g1 timestamp clock with
      | None => Blocked
      | Some (timestamp, clock') => emit g1 timestamp clock'
      end
    else emit g1 timestamp clock
  else emit (setSequence g 0) timestamp clock.

Definition NextID (g : Generator) (clock : Clock) : outcome :=
  match clock with
  | [] => Blocked
  | elapsed :: clock1 =>
    let timestamp := currentTimestamp g elapsed in
    if timestamp >? MaxTimestamp (layout g) then
      Failed ErrTimestampOverflow g clock1
    else
      match waitRollback g timestamp clock1 with
      | None => Blocked
      | Some (timestamp, clock2) => assignSequence g timestamp clock2
      end
  end.

Definition extractVersion (id : Z) : Version * option VersionLayout :=
  let v := wrap8 (Z.land (shr64 id 61) 7) in
  (v, versionLayouts v).

Definition Decode (id : Z) : result DecodedID :=
  match extractVersion id with
  | (_, None) => Err ErrInvalidVersion
  | (version, Some layout) =>
    let timeShift := add8 (SequenceBits layout) (NodeBits layout) in
    let nodeShift := SequenceBits layout in
    let timestamp := Z.land (shr64 id timeShift) (MaxTimestamp layout) in
    let nodeID := Z.land (shr64 id nodeShift) (MaxNodeID layout) in
    let sequence := Z.land id (MaxSequence layout) in
    let actualTime :=
      Time.Add (Epoch layout)
               (mulInt64 (wrapInt64 timestamp) (TimeUnit layout)) in
    Ok {| DVersion := version;
          DTimestamp := timestamp;
          DNodeID := nodeID;
          DSequence := sequence;
          DTime := actualTime |}
  end.

(** ** Runs of a generator *)

(** [calls n g clock]: [n] successive calls of [NextID] on one generator,
    each reading the clock where the previous one stopped.  The result is
    the list of the IDs returned, in order, and the final generator.  A
    call that returns an error returned no ID; a call that never returns
    holds the mutex, so nothing follows it. *)
Fixpoint calls (n : nat) (g : Generator) (clock : Clock)
  : list Z * Generator :=
  match n with
  | O => ([], g)
  | S n' =>
    match NextID g clock with
    | Returned id g' rest =>
      let (ids, g'') := calls n' g' rest in (id :: ids, g'')
    | Failed _ g' rest => calls n' g' rest
    | Blocked => ([], g)
    end
  end.

(** The states a generator made by [NewGenerator] can be in between two
    calls, when the clock delivers [int64] durations. *)
Inductive reachable : Generator -> Prop :=
| reach_new cfg g :
    is_uint8 (CVersion cfg) -> is_uint64 (CNodeID cfg) ->
    NewGenerator cfg = Ok g -> reachable g
| reach_returned g clock id g' rest :
    reachable g -> Forall is_int64 clock ->
    NextID g clock = Returned id g' rest -> reachable g'
| reach_failed g clock e g' rest :
    reachable g -> Forall is_int64 clock ->
    NextID g clock = Failed e g' rest -> reachable g'.

(** ** Vocabulary of the statements and proofs *)

(** The largest tick an [int64] duration holds at one millisecond per
    tick: [(2^63 - 1) / 10^6]. *)
Definition tickBound : Z := 9223372036854.

(** The values [currentTimestamp] takes under the version-0 layout: the
    ticks of a non-negative duration, and the wrapped ticks of a negative
    one (a clock set before the epoch). *)
Definition tick_range (t : Z) : Prop :=
  0 <= t <= tickBound \/ 2 ^ 64 - tickBound <= t < 2 ^ 64.

(** What [NewGenerator] establishes and no call changes. *)
Record wf (g : Generator) : Prop := mkWf {
  wf_layout : layout g = layout0;
  wf_node : 0 <= nodeID g <= 255;
  wf_seq : 0 <= sequence g <= 255;
  wf_vshift : versionShift g = 61;
  wf_tshift : timeShift g = 16;
  wf_nshift : nodeShift g = 8
}.

Definition inv (g : Generator) : Prop :=
  wf g /\ tick_range (lastTimestamp g).

(** The ID a generator in state [g] encodes at tick [lastTimestamp g],
    as a number. *)
Definition idOf (g : Generator) : Z :=
  (lastTimestamp g mod 2 ^ 48) * 2 ^ 16 + nodeID g * 2 ^ 8 + sequence g.

(** [reads clock e rest]: reading [e] is the last one consumed when
    [clock] has been consumed down to [rest]. *)
Definition reads (clock : Clock) (e : Time.Duration) (rest : Clock) : Prop :=
  exists pre, clock = pre ++ e :: rest.

(** The sequence number [NextID] assigns within a tick. *)
Definition nextSequence (g : Generator) : Z :=
  Z.land (wrap64 (sequence g + 1)) (MaxSequence (layout g)).

(** The timestamp field of an ID under a layout, as [Decode] reads it. *)
Definition timestampField (l : VersionLayout) (id : Z) : Z :=
  Z.land (shr64 id (add8 (SequenceBits l) (NodeBits l))) (MaxTimestamp l).

(** [before a b]: state [b] comes after state [a] in a run. *)
Definition before (a b : Generator) : Prop :=
  inv a /\ inv b /\ idOf a < idOf b /\ lastTimestamp a <= lastTimestamp b.

(** The fields set by [NewGenerator] and never assigned again. *)
Definition sameParameters (g g' : Generator) : Prop :=
  layout g' = layout g /\ nodeID g' = nodeID g /\
  versionShift g' = versionShift g /\ timeShift g' = timeShift g /\
  nodeShift g' = nodeShift g.

(** Sample values: generator 5 of version 0 as [NewGenerator] makes it,
    and a clock that repeats a tick, steps back and then advances. *)
Definition sampleGenerator : Generator :=
  {| layout := layout0; nodeID := 5; lastTimestamp := 0; sequence := 0;
     versionShift := 61; timeShift := 16; nodeShift := 8 |}.

Definition sampleClock : Clock :=
  [3000000; 3000001; 2000000; 3999999; 7000000; 0].

(** The states the returning calls of a run leave, in order: [calls]
    with the generators kept instead of the IDs. *)
Fixpoint states (n : nat) (g : Generator) (clock : Clock) : list Generator :=
  match n with
  | O => []
  | S n' =>
    match NextID g clock with
    | Returned _ g' rest => g' :: states n' g' rest
    | Failed _ g' rest => states n' g' rest
    | Blocked => []
    end
  end.

(** [follows a b]: [b] comes after [a] in a run of one generator. *)
Definition follows (a b : Generator) : Prop :=
  before a b /\ nodeID b = nodeID a.

(** The node field of an ID under a layout, as [Decode] reads it. *)
Definition nodeField (l : VersionLayout) (id : Z) : Z :=
  Z.land (shr64 id (SequenceBits l)) (MaxNodeID l).

(** A reading taken less than one tick before the epoch, or later. *)
Definition fromEpoch (elapsed : Time.Duration) : Prop :=
  is_int64 elapsed /\ - 1000000 < elapsed.

(** ** Arithmetic of the machine operations *)

Section BitArith.

Lemma Ok_inj {A} (a b : A) : Ok a = Ok b -> a = b.
Proof. intros H. injection H as H. exact H. Qed.

Lemma wrap64_range z : is_uint64 (wrap64 z).
Proof. unfold is_uint64, wrap64. apply Z.mod_pos_bound. lia. Qed.

Lemma wrap64_small z : is_uint64 z -> wrap64 z = z.
Proof. unfold is_uint64, wrap64. intros H. apply Z.mod_small. exact H. Qed.

Lemma wrapInt64_small z : is_int64 z -> wrapInt64 z = z.
Proof.
  unfold is_int64, wrapInt64. intros H.
  rewrite Z.mod_small by lia. lia.
Qed.

Lemma wrap8_small z : is_uint8 z -> wrap8 z = z.
Proof. unfold is_uint8, wrap8. intros H. apply Z.mod_small. exact H. Qed.

(** [x << s] keeps the low [64 - s] bits of [x]. *)
Lemma shl64_mod x s :
  0 <= s <= 64 -> shl64 x s = (x mod 2 ^ (64 - s)) * 2 ^ s.
Proof.
  intros Hs. unfold shl64, wrap64.
  rewrite Z.shiftl_mul_pow2 by lia.
  replace (2 ^ 64) with (2 ^ (64 - s) * 2 ^ s).
  - apply Z.mul_mod_distr_r; apply Z.pow_nonzero; lia.
  - rewrite <- Z.pow_add_r by lia. f_equal. lia.
Qed.

Lemma land_low_high a b n :
  0 <= n -> 0 <= b < 2 ^ n -> Z.land (a * 2 ^ n) b = 0.
Proof.
  intros Hn Hb. apply Z.bits_inj'. intros i Hi.
  rewrite Z.land_spec, Z.bits_0.
  destruct (Z.lt_ge_cases i n) as [Hlt | Hge].
  - rewrite Z.mul_pow2_bits_low by exact Hlt. reflexivity.
  - rewrite <- (Z.mod_small b (2 ^ n)) by exact Hb.
    rewrite Z.mod_pow2_bits_high by lia. apply andb_false_r.
Qed.

(** Fields that do not overlap are put together by addition. *)
Lemma lor_low_high a b n :
  0 <= n -> 0 <= b < 2 ^ n -> Z.lor (a * 2 ^ n) b = a * 2 ^ n + b.
Proof.
  intros Hn Hb. pose proof (land_low_high a b n Hn Hb) as H0.
  rewrite <- Z.lxor_lor by exact H0.
  symmetry. apply Z.add_nocarry_lxor. exact H0.
Qed.

Lemma land_mask a n : 0 <= n -> Z.land a (Z.shiftl 1 n - 1) = a mod 2 ^ n.
Proof.
  intros Hn. rewrite Z.shiftl_1_l, Z.sub_1_r, <- Z.ones_equiv.
  apply Z.land_ones. exact Hn.
Qed.

Lemma land_bounds a b : 0 <= a -> 0 <= b -> 0 <= Z.land a b <= b.
Proof.
  intros Ha Hb. split.
  - apply Z.land_nonneg. left. exact Ha.
  - rewrite <- (Z2N.id a), <- (Z2N.id b) at 1 by assumption.
    rewrite <- N2Z.inj_land.
    rewrite <- (Z2N.id b) at 2 by assumption.
    apply N2Z.inj_le. apply N.land_le_r.
Qed.

End BitArith.

(** ** The registry and the version-0 layout *)

Section Registry.

Lemma versionLayouts_spec v :
  versionLayouts v = if Version0 =? v then Some layout0 else None.
Proof. reflexivity. Qed.

Lemma versionLayouts_Some v l :
  versionLayouts v = Some l -> v = Version0 /\ l = layout0.
Proof.
  rewrite versionLayouts_spec.
  destruct (Z.eqb_spec Version0 v) as [E | _]; [| discriminate].
  intros H. injection H as <-. split; [symmetry; exact E | reflexivity].
Qed.

Lemma versionLayouts_None v : versionLayouts v = None <-> v <> Version0.
Proof.
  rewrite versionLayouts_spec.
  destruct (Z.eqb_spec Version0 v) as [E | N]; split; intros H;
    try discriminate; try congruence.
Qed.

Lemma extractVersion_eq id :
  extractVersion id =
  ((id / 2 ^ 61) mod 2 ^ 3, versionLayouts ((id / 2 ^ 61) mod 2 ^ 3)).
Proof.
  unfold extractVersion, shr64.
  rewrite Z.shiftr_div_pow2 by lia.
  change 7 with (Z.ones 3). rewrite Z.land_ones by lia.
  rewrite wrap8_small; [reflexivity |].
  unfold is_uint8. pose proof (Z.mod_pos_bound (id / 2 ^ 61) (2 ^ 3)). lia.
Qed.

(** [Decode] on an ID whose top three bits hold a registered version. *)
Lemma Decode_version0 id :
  (id / 2 ^ 61) mod 2 ^ 3 = Version0 ->
  Decode id =
  Ok {| DVersion := Version0;
        DTimestamp := (id / 2 ^ 16) mod 2 ^ 45;
        DNodeID := (id / 2 ^ 8) mod 2 ^ 8;
        DSequence := id mod 2 ^ 8;
        DTime := Time.Add (Epoch layout0)
                   (mulInt64 (wrapInt64 ((id / 2 ^ 16) mod 2 ^ 45))
                             (TimeUnit layout0)) |}.
Proof.
  intros Hv. unfold Decode. rewrite extractVersion_eq, Hv.
  change (versionLayouts Version0) with (Some layout0). cbv iota beta zeta.
  change (add8 (SequenceBits layout0) (NodeBits layout0)) with 16.
  change (SequenceBits layout0) with 8.
  change (MaxTimestamp layout0) with (Z.shiftl 1 45 - 1).
  change (MaxNodeID layout0) with (Z.shiftl 1 8 - 1).
  change (MaxSequence layout0) with (Z.shiftl 1 8 - 1).
  unfold shr64. rewrite !land_mask, !Z.shiftr_div_pow2 by lia.
  reflexivity.
Qed.

Lemma Decode_unregistered id :
  (id / 2 ^ 61) mod 2 ^ 3 <> Version0 -> Decode id = Err ErrInvalidVersion.
Proof.
  intros Hv. unfold Decode. rewrite extractVersion_eq.
  apply versionLayouts_None in Hv. rewrite Hv. reflexivity.
Qed.

End Registry.

(** ** Generator invariant *)

Section Invariant.

Lemma div_tickBound a :
  0 <= a <= 2 ^ 63 -> 0 <= a / 1000000 <= tickBound.
Proof.
  intros Ha. unfold tickBound. split.
  - apply Z.div_pos; lia.
  - apply Z.lt_succ_r. apply Z.div_lt_upper_bound; lia.
Qed.

Lemma currentTimestamp_cases g elapsed :
  layout g = layout0 -> is_int64 elapsed ->
  (0 <= elapsed /\ currentTimestamp g elapsed = elapsed / 1000000) \/
  (- 1000000 < elapsed < 0 /\ currentTimestamp g elapsed = 0) \/
  (elapsed <= - 1000000 /\
   currentTimestamp g elapsed = 2 ^ 64 - (- elapsed) / 1000000).
Proof.
  intros Hl He. unfold currentTimestamp, divInt64. rewrite Hl.
  change (TimeUnit layout0) with 1000000.
  unfold is_int64 in He.
  destruct (Z.lt_ge_cases elapsed 0) as [Hneg | Hpos].
  - right.
    assert (Hquot : Z.quot elapsed 1000000 = - ((- elapsed) / 1000000)).
    { rewrite <- Z.quot_div_nonneg by lia.
      rewrite <- Z.quot_opp_l by lia. f_equal. lia. }
    rewrite Hquot.
    pose proof (div_tickBound (- elapsed)) as Hq. unfold tickBound in Hq.
    rewrite wrapInt64_small by (unfold is_int64; lia).
    destruct (Z.lt_ge_cases (- 1000000) elapsed) as [Hs | Hb].
    + left. rewrite Z.div_small by lia. split; [lia | reflexivity].
    + right. split; [lia |].
      assert (1 <= (- elapsed) / 1000000)
        by (apply Z.div_le_lower_bound; lia).
      unfold wrap64.
      rewrite <- (Z.mod_add _ 1) by lia.
      rewrite Z.mod_small by lia. lia.
  - left. split; [lia |].
    rewrite Z.quot_div_nonneg by lia.
    pose proof (div_tickBound elapsed) as Hq. unfold tickBound in Hq.
    rewrite wrapInt64_small by (unfold is_int64; lia).
    apply wrap64_small. unfold is_uint64. lia.
Qed.

Lemma currentTimestamp_range g elapsed :
  layout g = layout0 -> is_int64 elapsed ->
  tick_range (currentTimestamp g elapsed).
Proof.
  intros Hl He. unfold tick_range.
  destruct (currentTimestamp_cases g elapsed Hl He)
    as [[Hp ->] | [[_ ->] | [Hn ->]]];
    unfold is_int64 in He.
  - left. apply div_tickBound. lia.
  - left. unfold tickBound. lia.
  - right.
    assert (1 <= (- elapsed) / 1000000)
      by (apply Z.div_le_lower_bound; lia).
    pose proof (div_tickBound (- elapsed)). lia.
Qed.

End Invariant.

(** ** The waiting loops *)

Section Loops.

Variable g : Generator.

Let tick := currentTimestamp g.

Lemma waitRollback_done t clock :
  lastTimestamp g <= t -> waitRollback g t clock = Some (t, clock).
Proof.
  intros H. destruct clock; simpl;
    destruct (Z.ltb_spec t (lastTimestamp g)); try lia; reflexivity.
Qed.

Lemma waitRollback_step t elapsed clock :
  t < lastTimestamp g ->
  waitRollback g t (elapsed :: clock) = waitRollback g (tick elapsed) clock.
Proof.
  intros H. simpl.
  destruct (Z.ltb_spec t (lastTimestamp g)); [reflexivity | lia].
Qed.

Lemma waitRollback_nil t :
  t < lastTimestamp g -> waitRollback g t [] = None.
Proof.
  intros H. simpl.
  destruct (Z.ltb_spec t (lastTimestamp g)); [reflexivity | lia].
Qed.


Lemma waitRollback_blocks clock : forall t,
  t < lastTimestamp g ->
  Forall (fun e => tick e < lastTimestamp g) clock ->
  waitRollback g t clock = None.
Proof.
  induction clock as [| e clock IH]; intros t Ht Hall.
  - apply waitRollback_nil. exact Ht.
  - inversion Hall; subst. rewrite waitRollback_step by exact Ht.
    apply IH; assumption.
Qed.

Lemma waitRollback_Some clock : forall t t' rest,
  waitRollback g t clock = Some (t', rest) ->
  (lastTimestamp g <= t /\ t' = t /\ rest = clock) \/
  (t < lastTimestamp g /\
   exists pre elapsed,
     clock = pre ++ elapsed :: rest /\
     Forall (fun e => tick e < lastTimestamp g) pre /\
     t' = tick elapsed /\ lastTimestamp g <= tick elapsed).
Proof.
  induction clock as [| e clock IH]; intros t t' rest H.
  - destruct (Z.lt_ge_cases t (lastTimestamp g)) as [Hlt | Hge].
    + rewrite waitRollback_nil in H by exact Hlt. discriminate.
    + rewrite waitRollback_done in H by exact Hge.
      injection H as <- <-. left. auto.
  - destruct (Z.lt_ge_cases t (lastTimestamp g)) as [Hlt | Hge].
    + rewrite waitRollback_step in H by exact Hlt. right. split; [exact Hlt |].
      destruct (IH _ _ _ H) as [[Hge [-> ->]] | [Hlt' [pre [d [-> [Hp [-> Hd]]]]]]].
      * exists [], e. simpl. auto.
      * exists (e :: pre), d. simpl. repeat split; auto.
    + rewrite waitRollback_done in H by exact Hge.
      injection H as <- <-. left. auto.
Qed.

Lemma waitRollback_None clock : forall t,
  waitRollback g t clock = None ->
  t < lastTimestamp g /\
  Forall (fun e => tick e < lastTimestamp g) clock.
Proof.
  induction clock as [| e clock IH]; intros t H.
  - destruct (Z.lt_ge_cases t (lastTimestamp g)) as [Hlt | Hge].
    + split; [exact Hlt | constructor].
    + rewrite waitRollback_done in H by exact Hge. discriminate.
  - destruct (Z.lt_ge_cases t (lastTimestamp g)) as [Hlt | Hge].
    + rewrite waitRollback_step in H by exact Hlt.
      destruct (IH _ H) as [He Hc]. split; [exact Hlt |].
      constructor; assumption.
    + rewrite waitRollback_done in H by exact Hge. discriminate.
Qed.



Lemma waitNextTimestamp_Some last clock : forall t' rest,
  waitNextTimestamp g last clock = Some (t', rest) ->
  exists pre elapsed,
    clock = pre ++ elapsed :: rest /\
    Forall (fun e => tick e <= last) pre /\
    t' = tick elapsed /\ last < tick elapsed.
Proof.
  induction clock as [| e clock IH]; intros t' rest H; simpl in H.
  - discriminate.
  - fold (tick e) in H. destruct (Z.leb_spec (tick e) last) as [Hle | Hgt].
    + destruct (IH _ _ H) as [pre [d [-> [Hp [-> Hd]]]]].
      exists (e :: pre), d. simpl. repeat split; auto.
    + injection H as <- <-. exists [], e. simpl. auto.
Qed.

Lemma waitNextTimestamp_None last clock :
  waitNextTimestamp g last clock = None ->
  Forall (fun e => tick e <= last) clock.
Proof.
  induction clock as [| e clock IH]; intros H; simpl in H.
  - constructor.
  - fold (tick e) in H. destruct (Z.leb_spec (tick e) last) as [Hle | Hgt].
    + constructor; auto.
    + discriminate.
Qed.

End Loops.

(** ** One call of [NextID] *)

Section Call.

Lemma reads_here e rest : reads (e :: rest) e rest.
Proof. exists []. reflexivity. Qed.

Lemma reads_later d clock e rest :
  reads clock e rest -> reads (d :: clock) e rest.
Proof. intros [pre ->]. exists (d :: pre). reflexivity. Qed.

Lemma reads_app pre clock e rest :
  reads clock e rest -> reads (pre ++ clock) e rest.
Proof.
  intros [pre' ->]. exists (pre ++ pre'). rewrite <- app_assoc. reflexivity.
Qed.

Lemma reads_trans clock e rest e' rest' :
  reads clock e rest -> reads rest e' rest' -> reads clock e' rest'.
Proof.
  intros [pre ->] H. apply reads_app. apply reads_later. exact H.
Qed.

Lemma reads_Forall (P : Z -> Prop) clock e rest :
  reads clock e rest -> Forall P clock -> P e /\ Forall P rest.
Proof.
  intros [pre ->] H. apply Forall_app in H. destruct H as [_ H].
  inversion H; subst. split; assumption.
Qed.

Lemma currentTimestamp_setSequence g s e :
  currentTimestamp (setSequence g s) e = currentTimestamp g e.
Proof. reflexivity. Qed.

(** Every way [NextID] returns an ID: the tick it encodes is the one of
    the last reading it consumed; either that tick is past
    [lastTimestamp] and the sequence is 0, or it is [lastTimestamp] and
    the sequence is the next one, which did not wrap. *)
Lemma NextID_Returned g clock id g' rest :
  NextID g clock = Returned id g' rest ->
  exists elapsed clock1 e t s,
    clock = elapsed :: clock1 /\
    currentTimestamp g elapsed <= MaxTimestamp (layout g) /\
    reads clock e rest /\ t = currentTimestamp g e /\
    g' = setLastTimestamp (setSequence g s) t /\
    id = encodeID g' t /\
    ((lastTimestamp g < t /\ s = 0) \/
     (t = lastTimestamp g /\ s = nextSequence g /\ s <> 0)).
Proof.
  unfold NextID. destruct clock as [| elapsed clock1]; [discriminate |].
  destruct (Z.gtb_spec (currentTimestamp g elapsed) (MaxTimestamp (layout g)))
    as [Hov | Hok]; [discriminate |].
  destruct (waitRollback g (currentTimestamp g elapsed) clock1)
    as [[t clock2] |] eqn:Hroll; [| discriminate].
  assert (Hread : exists e, reads (elapsed :: clock1) e clock2 /\
                            t = currentTimestamp g e /\ lastTimestamp g <= t).
  { apply waitRollback_Some in Hroll.
    destruct Hroll as [[Hge [-> ->]] | [Hlt [pre [d [-> [_ [-> Hd]]]]]]].
    - exists elapsed. split; [apply reads_here | auto].
    - exists d. split; [| auto]. apply reads_later. exists pre. reflexivity. }
  destruct Hread as [e [Hreads [Ht Hlast]]].
  unfold assignSequence. fold (nextSequence g).
  destruct (Z.eqb_spec t (lastTimestamp g)) as [Heq | Hne].
  - cbn [sequence setSequence].
    destruct (Z.eqb_spec (nextSequence g) 0) as [Hz | Hnz].
    + destruct (waitNextTimestamp (setSequence g (nextSequence g)) t clock2)
        as [[t' clock3] |] eqn:Hnext; [| discriminate].
      unfold emit. intros H. injection H as <- <- <-.
      apply waitNextTimestamp_Some in Hnext.
      destruct Hnext as [pre [d [-> [_ [-> Hd]]]]].
      rewrite currentTimestamp_setSequence in *.
      exists elapsed, clock1, d, (currentTimestamp g d), (nextSequence g).
      repeat split; try reflexivity.
      * lia.
      * eapply reads_trans; [exact Hreads |]. exists pre. reflexivity.
      * left. split; [lia | exact Hz].
    + unfold emit. intros H. injection H as <- <- <-.
      exists elapsed, clock1, e, t, (nextSequence g).
      repeat split; auto; try lia.
  - unfold emit. intros H. injection H as <- <- <-.
    exists elapsed, clock1, e, t, 0.
    repeat split; auto; try lia.
Qed.

(** [NextID] returns an error on one path only, before it has changed
    anything. *)
Lemma NextID_Failed g clock err g' rest :
  NextID g clock = Failed err g' rest ->
  exists elapsed,
    clock = elapsed :: rest /\
    MaxTimestamp (layout g) < currentTimestamp g elapsed /\
    err = ErrTimestampOverflow /\ g' = g.
Proof.
  unfold NextID. destruct clock as [| elapsed clock1]; [discriminate |].
  destruct (Z.gtb_spec (currentTimestamp g elapsed) (MaxTimestamp (layout g)))
    as [Hov | Hok].
  - intros H. injection H as <- <- <-. exists elapsed. auto.
  - destruct (waitRollback g (currentTimestamp g elapsed) clock1)
      as [[t clock2] |]; [| discriminate].
    unfold assignSequence.
    destruct (t =? lastTimestamp g).
    + destruct (sequence _ =? 0).
      * destruct (waitNextTimestamp _ t clock2) as [[t' clock3] |];
          discriminate.
      * discriminate.
    + discriminate.
Qed.

Lemma NextID_overflow g elapsed clock :
  MaxTimestamp (layout g) < currentTimestamp g elapsed ->
  NextID g (elapsed :: clock) = Failed ErrTimestampOverflow g clock.
Proof.
  intros H. unfold NextID.
  destruct (Z.gtb_spec (currentTimestamp g elapsed) (MaxTimestamp (layout g)));
    [reflexivity | lia].
Qed.

End Call.

(** ** Encoding as arithmetic *)

Section Encoding.

Lemma NewGenerator_Ok cfg g :
  NewGenerator cfg = Ok g ->
  CVersion cfg = Version0 /\ CNodeID cfg <= 255 /\
  g = {| layout := layout0; nodeID := CNodeID cfg; lastTimestamp := 0;
         sequence := 0; versionShift := 61; timeShift := 16;
         nodeShift := 8 |}.
Proof.
  unfold NewGenerator.
  destruct (versionLayouts (CVersion cfg)) as [l |] eqn:Hl; [| discriminate].
  apply versionLayouts_Some in Hl. destruct Hl as [Hv ->].
  change (MaxNodeID layout0) with 255.
  destruct (Z.gtb_spec (CNodeID cfg) 255) as [Hgt | Hle]; [discriminate |].
  intros H. injection H as <-. repeat split; assumption.
Qed.

Lemma NewGenerator_wf cfg g :
  is_uint64 (CNodeID cfg) -> NewGenerator cfg = Ok g -> inv g.
Proof.
  intros Hn H. apply NewGenerator_Ok in H. destruct H as [_ [Hle ->]].
  unfold is_uint64 in Hn.
  split; [constructor; cbn; try reflexivity; lia |].
  left. cbn. unfold tickBound. lia.
Qed.

Lemma wf_update g s t :
  wf g -> 0 <= s <= 255 -> wf (setLastTimestamp (setSequence g s) t).
Proof.
  intros [Hl Hn Hs Hv Ht Hns] Hs'. constructor; cbn; assumption.
Qed.

(** The ID as a sum of its right-aligned fields; the tick loses the bits
    that the shift pushes past bit 63. *)
Lemma encodeID_sum g t :
  wf g ->
  encodeID g t = (t mod 2 ^ 48) * 2 ^ 16 + nodeID g * 2 ^ 8 + sequence g.
Proof.
  intros [Hl Hn Hs Hv Ht Hns]. unfold encodeID.
  rewrite Hl, Hv, Ht, Hns.
  change (shl64 (LVersion layout0) 61) with 0. rewrite Z.lor_0_l.
  rewrite !shl64_mod by lia.
  change (64 - 16) with 48. change (64 - 8) with 56.
  rewrite (Z.mod_small (nodeID g)) by lia.
  rewrite lor_low_high by lia.
  replace (t mod 2 ^ 48 * 2 ^ 16 + nodeID g * 2 ^ 8)
    with ((t mod 2 ^ 48 * 2 ^ 8 + nodeID g) * 2 ^ 8) by lia.
  rewrite lor_low_high by lia. reflexivity.
Qed.

Lemma encodeID_idOf g :
  wf g -> encodeID g (lastTimestamp g) = idOf g.
Proof. intros H. apply encodeID_sum. exact H. Qed.

(** On the ticks the clock can deliver, dropping the bits above bit 47
    keeps the order. *)
Lemma tick_low48 t :
  tick_range t ->
  (t <= tickBound /\ t mod 2 ^ 48 = t) \/
  (2 ^ 64 - tickBound <= t /\ t mod 2 ^ 48 = t - 2 ^ 64 + 2 ^ 48).
Proof.
  unfold tick_range, tickBound. intros [H | H].
  - left. split; [lia |]. apply Z.mod_small. lia.
  - right. split; [lia |].
    replace t with (t - 2 ^ 64 + 2 ^ 48 + (2 ^ 16 - 1) * 2 ^ 48) at 1 by lia.
    rewrite Z.mod_add by lia. apply Z.mod_small. lia.
Qed.

Lemma tick_low48_mono t1 t2 :
  tick_range t1 -> tick_range t2 -> t1 < t2 ->
  t1 mod 2 ^ 48 < t2 mod 2 ^ 48.
Proof.
  intros H1 H2 Hlt.
  destruct (tick_low48 t1 H1) as [[B1 ->] | [B1 ->]];
    destruct (tick_low48 t2 H2) as [[B2 ->] | [B2 ->]];
    unfold tick_range, tickBound in *; lia.
Qed.

Lemma tick_low45 t :
  tick_range t ->
  (t <= tickBound /\ t mod 2 ^ 45 = t) \/
  (2 ^ 64 - tickBound <= t /\ t mod 2 ^ 45 = t - 2 ^ 64 + 2 ^ 45).
Proof.
  unfold tick_range, tickBound. intros [H | H].
  - left. split; [lia |]. apply Z.mod_small. lia.
  - right. split; [lia |].
    replace t with (t - 2 ^ 64 + 2 ^ 45 + (2 ^ 19 - 1) * 2 ^ 45) at 1 by lia.
    rewrite Z.mod_add by lia. apply Z.mod_small. lia.
Qed.


Lemma idOf_range g : inv g -> is_uint64 (idOf g).
Proof.
  intros [[Hl Hn Hs Hv Ht Hns] Hr]. unfold idOf, is_uint64.
  pose proof (Z.mod_pos_bound (lastTimestamp g) (2 ^ 48)). lia.
Qed.

(** The sequence number of a call within the tick of the previous ID. *)
Lemma nextSequence_cases g :
  wf g ->
  (sequence g < 255 /\ nextSequence g = sequence g + 1) \/
  (sequence g = 255 /\ nextSequence g = 0).
Proof.
  intros [Hl Hn Hs Hv Ht Hns]. unfold nextSequence. rewrite Hl.
  change (MaxSequence layout0) with (Z.shiftl 1 8 - 1).
  rewrite land_mask by lia.
  rewrite wrap64_small by (unfold is_uint64; lia).
  destruct (Z.eq_dec (sequence g) 255) as [E | N].
  - right. rewrite E. split; reflexivity.
  - left. split; [lia |]. apply Z.mod_small. lia.
Qed.

(** One returned call: the invariant is kept, the ID is the number
    [idOf] of the new state, and that number has grown. *)
Lemma NextID_step g clock id g' rest :
  inv g -> Forall is_int64 clock ->
  NextID g clock = Returned id g' rest ->
  inv g' /\ Forall is_int64 rest /\ id = idOf g' /\ idOf g < idOf g' /\
  lastTimestamp g <= lastTimestamp g' /\
  layout g' = layout g /\ nodeID g' = nodeID g.
Proof.
  intros [Hwf Hlast] Hclock H.
  apply NextID_Returned in H.
  destruct H as [elapsed [clock1 [e [t [s [-> [Hok [Hreads [Ht [-> [-> Hcase]]]]]]]]]]].
  destruct (reads_Forall _ _ _ _ Hreads Hclock) as [He Hrest].
  assert (Htick : tick_range t).
  { subst t. apply currentTimestamp_range; [apply Hwf | exact He]. }
  assert (Hs : 0 <= s <= 255).
  { destruct Hcase as [[_ ->] | [_ [-> _]]]; [lia |].
    destruct (nextSequence_cases g Hwf) as [[? ->] | [? ->]];
      destruct Hwf; lia. }
  pose proof (wf_update g s t Hwf Hs) as Hwf'.
  split; [split; [exact Hwf' | exact Htick] |].
  split; [exact Hrest |].
  split; [apply (encodeID_idOf _ Hwf') |].
  split; [| split; [cbn; lia | split; reflexivity]].
  unfold idOf.
  cbn [lastTimestamp nodeID sequence setLastTimestamp setSequence].
  destruct Hwf as [Hl Hn Hsq Hv Hts Hns].
  destruct Hcase as [[Hlt ->] | [-> [-> Hnz]]].
  - pose proof (tick_low48_mono _ _ Hlast Htick Hlt). lia.
  - destruct (nextSequence_cases g (mkWf g Hl Hn Hsq Hv Hts Hns))
      as [[? E] | [? E]]; rewrite E in *; lia.
Qed.

End Encoding.

(** ** Runs *)

Section Runs.

Lemma before_trans a b c : before a b -> before b c -> before a c.
Proof.
  unfold before. intros [Ha [Hb [H1 H2]]] [_ [Hc [H3 H4]]].
  split; [exact Ha | split; [exact Hc | lia]].
Qed.

Lemma StronglySorted_map {A B} (R : A -> A -> Prop) (R' : B -> B -> Prop)
      (f : A -> B) (l : list A) :
  (forall a b, R a b -> R' (f a) (f b)) ->
  StronglySorted R l -> StronglySorted R' (map f l).
Proof.
  intros Hf. induction 1 as [| a l Hl IH Ha]; simpl; constructor.
  - exact IH.
  - apply Forall_map. eapply Forall_impl; [| exact Ha].
    intros b. apply Hf.
Qed.

Lemma StronglySorted_lt_NoDup (l : list Z) :
  StronglySorted Z.lt l -> NoDup l.
Proof.
  induction 1 as [| a l Hl IH Ha]; constructor.
  - intros Hin. rewrite Forall_forall in Ha. specialize (Ha a Hin). lia.
  - exact IH.
Qed.

Lemma reachable_inv g : reachable g -> inv g.
Proof.
  induction 1 as [cfg g Hv Hn Hnew | g clock id g' rest Hr IH Hc Hcall
                  | g clock e g' rest Hr IH Hc Hcall].
  - eapply NewGenerator_wf; eassumption.
  - eapply NextID_step; eassumption.
  - apply NextID_Failed in Hcall.
    destruct Hcall as [elapsed [_ [_ [_ ->]]]]. exact IH.
Qed.

(** The IDs of a run are the numbers [idOf] of the states the returning
    calls leave, and each of these states comes after the ones before. *)
Lemma calls_trace n : forall g clock,
  inv g -> Forall is_int64 clock ->
  exists gs,
    fst (calls n g clock) = map idOf gs /\
    StronglySorted before (g :: gs) /\
    inv (snd (calls n g clock)).
Proof.
  induction n as [| n IH]; intros g clock Hinv Hclock; simpl.
  - exists [].
    split; [reflexivity | split; [constructor; constructor | exact Hinv]].
  - destruct (NextID g clock) as [id g' rest | e g' rest |] eqn:Hcall.
    + destruct (NextID_step _ _ _ _ _ Hinv Hclock Hcall)
        as [Hinv' [Hrest [Hid [Hlt [Hle _]]]]].
      destruct (IH g' rest Hinv' Hrest) as [gs [Hids [Hsorted Hfinal]]].
      destruct (calls n g' rest) as [ids g'']. simpl in *.
      exists (g' :: gs).
      split; [simpl; rewrite Hid, Hids; reflexivity |].
      split; [| exact Hfinal].
      assert (Hstep : before g g') by (unfold before; auto).
      constructor; [exact Hsorted |].
      constructor; [exact Hstep |].
      inversion Hsorted as [| ? ? _ Hall]; subst.
      eapply Forall_impl; [| exact Hall].
      intros x Hx. eapply before_trans; eassumption.
    + apply NextID_Failed in Hcall.
      destruct Hcall as [elapsed [-> [_ [_ ->]]]].
      inversion Hclock; subst. apply IH; assumption.
    + exists [].
    split; [reflexivity | split; [constructor; constructor | exact Hinv]].
Qed.

Lemma timestampField_idOf g :
  inv g -> timestampField layout0 (idOf g) = lastTimestamp g mod 2 ^ 45.
Proof.
  intros [[Hl Hn Hs Hv Ht Hns] Hr]. unfold timestampField, shr64.
  change (add8 (SequenceBits layout0) (NodeBits layout0)) with 16.
  change (MaxTimestamp layout0) with (Z.shiftl 1 45 - 1).
  rewrite land_mask, Z.shiftr_div_pow2 by lia.
  unfold idOf.
  replace ((lastTimestamp g mod 2 ^ 48) * 2 ^ 16 + nodeID g * 2 ^ 8
           + sequence g)
    with ((nodeID g * 2 ^ 8 + sequence g)
          + (lastTimestamp g mod 2 ^ 48) * 2 ^ 16) by lia.
  rewrite Z.div_add by lia.
  rewrite (Z.div_small (nodeID g * 2 ^ 8 + sequence g)) by lia.
  rewrite Z.add_0_l.
  change (2 ^ 48) with (2 ^ 45 * 2 ^ 3).
  rewrite Z.rem_mul_r by lia.
  rewrite Z.mul_comm, Z.mod_add by lia.
  apply Z.mod_mod. lia.
Qed.

End Runs.

(** ** What no call changes *)

Section Immutable.

Lemma sameParameters_refl g : sameParameters g g.
Proof. unfold sameParameters. auto. Qed.

Lemma sameParameters_trans g1 g2 g3 :
  sameParameters g1 g2 -> sameParameters g2 g3 -> sameParameters g1 g3.
Proof.
  unfold sameParameters.
  intros [A1 [A2 [A3 [A4 A5]]]] [B1 [B2 [B3 [B4 B5]]]].
  repeat split; congruence.
Qed.

Lemma NextID_sameParameters g clock id g' rest :
  NextID g clock = Returned id g' rest -> sameParameters g g'.
Proof.
  intros H. apply NextID_Returned in H.
  destruct H as [elapsed [clock1 [e [t [s [_ [_ [_ [_ [-> _]]]]]]]]]].
  unfold sameParameters. cbn. auto.
Qed.

Lemma calls_sameParameters n : forall g clock,
  sameParameters g (snd (calls n g clock)).
Proof.
  induction n as [| n IH]; intros g clock; simpl.
  - apply sameParameters_refl.
  - destruct (NextID g clock) as [id g' rest | e g' rest |] eqn:Hcall.
    + specialize (IH g' rest).
      destruct (calls n g' rest) as [ids g'']. simpl in *.
      eapply sameParameters_trans; [| exact IH].
      eapply NextID_sameParameters. exact Hcall.
    + apply NextID_Failed in Hcall.
      destruct Hcall as [elapsed [_ [_ [_ ->]]]]. apply IH.
    + apply sameParameters_refl.
Qed.

End Immutable.

(** ** Decoding what was encoded *)

Section RoundTrip.

Lemma NewGenerator_version0 node :
  0 <= node <= 255 ->
  NewGenerator (mkConfig Version0 node) =
  Ok {| layout := layout0; nodeID := node; lastTimestamp := 0;
        sequence := 0; versionShift := 61; timeShift := 16;
        nodeShift := 8 |}.
Proof.
  intros Hn. unfold NewGenerator. cbn [CVersion CNodeID].
  change (versionLayouts Version0) with (Some layout0). cbv iota beta.
  change (MaxNodeID layout0) with 255.
  destruct (Z.gtb_spec node 255); [lia | reflexivity].
Qed.

Lemma Decode_fields t node s :
  0 <= t < 2 ^ 45 -> 0 <= node < 2 ^ 8 -> 0 <= s < 2 ^ 8 ->
  Decode (t * 2 ^ 16 + node * 2 ^ 8 + s) =
  Ok {| DVersion := Version0; DTimestamp := t; DNodeID := node;
        DSequence := s;
        DTime := Time.Add (Epoch layout0)
                   (mulInt64 (wrapInt64 t) (TimeUnit layout0)) |}.
Proof.
  intros Ht Hn Hs.
  assert (H61 : ((t * 2 ^ 16 + node * 2 ^ 8 + s) / 2 ^ 61) mod 2 ^ 3
                = Version0).
  { rewrite Z.div_small by lia. reflexivity. }
  assert (H16 : ((t * 2 ^ 16 + node * 2 ^ 8 + s) / 2 ^ 16) mod 2 ^ 45 = t).
  { replace (t * 2 ^ 16 + node * 2 ^ 8 + s)
      with ((node * 2 ^ 8 + s) + t * 2 ^ 16) by lia.
    rewrite Z.div_add, Z.div_small by lia. apply Z.mod_small. lia. }
  assert (H8 : ((t * 2 ^ 16 + node * 2 ^ 8 + s) / 2 ^ 8) mod 2 ^ 8 = node).
  { replace (t * 2 ^ 16 + node * 2 ^ 8 + s)
      with (s + (t * 2 ^ 8 + node) * 2 ^ 8) by lia.
    rewrite Z.div_add, Z.div_small by lia.
    rewrite Z.add_0_l, Z.add_comm, Z.mod_add by lia.
    apply Z.mod_small. lia. }
  assert (H0 : (t * 2 ^ 16 + node * 2 ^ 8 + s) mod 2 ^ 8 = s).
  { replace (t * 2 ^ 16 + node * 2 ^ 8 + s)
      with (s + (t * 2 ^ 8 + node) * 2 ^ 8) by lia.
    rewrite Z.mod_add by lia. apply Z.mod_small. lia. }
  rewrite (Decode_version0 _ H61), H16, H8, H0. reflexivity.
Qed.

(** Decoding the ID of a state whose tick fits the time field. *)
Lemma Decode_idOf g :
  inv g -> lastTimestamp g <= MaxTimestamp (layout g) ->
  Decode (idOf g) =
  Ok {| DVersion := LVersion (layout g); DTimestamp := lastTimestamp g;
        DNodeID := nodeID g; DSequence := sequence g;
        DTime := Time.Add (Epoch (layout g))
                   (mulInt64 (wrapInt64 (lastTimestamp g))
                             (TimeUnit (layout g))) |}.
Proof.
  intros [[Hl Hn Hs Hv Ht Hns] Hr]. rewrite Hl.
  change (MaxTimestamp layout0) with (2 ^ 45 - 1). intros Hmax.
  assert (H0 : 0 <= lastTimestamp g)
    by (unfold tick_range, tickBound in Hr; lia).
  unfold idOf. rewrite (Z.mod_small (lastTimestamp g)) by lia.
  apply Decode_fields; lia.
Qed.

End RoundTrip.

Lemma sampleClock_int64 : Forall is_int64 sampleClock.
Proof. repeat constructor; unfold is_int64; lia. Defined.

Lemma sample_uint8 : is_uint8 0.
Proof. unfold is_uint8. lia. Defined.

Lemma sample_uint64 : is_uint64 5.
Proof. unfold is_uint64. lia. Defined.

(** ** The specified properties *)

(** C1. The IDs that successive calls of [NextID] on one generator
    return, whatever the clock reads, are strictly increasing as unsigned
    64-bit integers, hence pairwise distinct; and each returning call
    either moves to a later tick with sequence 0 or stays in the tick with
    a larger sequence. *)
Theorem NextID_ids_strictly_increasing cfg g0 n clock :
  is_uint8 (CVersion cfg) -> is_uint64 (CNodeID cfg) ->
  Forall is_int64 clock ->
  NewGenerator cfg = Ok g0 ->
  StronglySorted Z.lt (fst (calls n g0 clock)) /\
  NoDup (fst (calls n g0 clock)) /\
  Forall is_uint64 (fst (calls n g0 clock)) /\
  (forall g c id g' rest,
     reachable g -> Forall is_int64 c ->
     NextID g c = Returned id g' rest ->
     (lastTimestamp g < lastTimestamp g' /\ sequence g' = 0) \/
     (lastTimestamp g' = lastTimestamp g /\ sequence g < sequence g')).
Proof.
  intros Hv Hn Hclock Hnew.
  pose proof (NewGenerator_wf cfg g0 Hn Hnew) as Hinv.
  destruct (calls_trace n g0 clock Hinv Hclock) as [gs [-> [Hsorted _]]].
  inversion Hsorted as [| ? ? Hgs Hall]; subst.
  assert (Hlt : StronglySorted Z.lt (map idOf gs)).
  { eapply StronglySorted_map; [| exact Hgs].
    intros a b Hab. apply Hab. }
  split; [exact Hlt |].
  split; [apply StronglySorted_lt_NoDup; exact Hlt |].
  split.
  - apply Forall_map. eapply Forall_impl; [| exact Hall].
    intros a Ha. apply idOf_range. apply Ha.
  - intros g c id g' rest Hreach Hc Hcall.
    pose proof (reachable_inv g Hreach) as [Hwf _].
    apply NextID_Returned in Hcall.
    destruct Hcall
      as [elapsed [clock1 [e [t [s [_ [_ [_ [_ [-> [_ Hcase]]]]]]]]]]].
    cbn [lastTimestamp sequence setLastTimestamp setSequence].
    destruct Hcase as [[Hlt' ->] | [-> [-> Hnz]]].
    + left. split; [exact Hlt' | reflexivity].
    + right. split; [reflexivity |].
      destruct (nextSequence_cases g Hwf) as [[? E] | [? E]];
        rewrite E in *; lia.
Qed.

Lemma NextID_ids_strictly_increasing_witness :
  StronglySorted Z.lt [197888; 197889; 197890; 460032].
Proof.
  exact (proj1 (NextID_ids_strictly_increasing
                  (mkConfig 0 5) sampleGenerator 4 sampleClock
                  sample_uint8 sample_uint64 sampleClock_int64 eq_refl)).
Defined.

(** C2. Round trip.  For a registered version and a node ID within the
    layout's range, [NewGenerator] makes a generator; an ID it encodes from
    a tick up to [MaxTimestamp] and a sequence up to [MaxSequence] decodes
    to that version, tick, node ID and sequence; and so does every ID a
    call of [NextID] returns with a tick up to [MaxTimestamp], in any state
    the generator reaches. *)
Theorem Decode_NextID_roundtrip v l node :
  versionLayouts v = Some l -> 0 <= node <= MaxNodeID l ->
  exists g0,
    NewGenerator (mkConfig v node) = Ok g0 /\
    (forall t s,
       0 <= t <= MaxTimestamp l -> 0 <= s <= MaxSequence l ->
       exists d,
         Decode (encodeID (setLastTimestamp (setSequence g0 s) t) t) = Ok d /\
         DVersion d = v /\ DTimestamp d = t /\
         DNodeID d = node /\ DSequence d = s) /\
    (forall n clock0 clock id g' rest,
       Forall is_int64 clock0 -> Forall is_int64 clock ->
       NextID (snd (calls n g0 clock0)) clock = Returned id g' rest ->
       lastTimestamp g' <= MaxTimestamp l ->
       exists d,
         Decode id = Ok d /\
         DVersion d = v /\ DTimestamp d = lastTimestamp g' /\
         DNodeID d = node /\ DSequence d = sequence g').
Proof.
  intros Hl Hnode. apply versionLayouts_Some in Hl. destruct Hl as [-> ->].
  change (MaxNodeID layout0) with 255 in Hnode.
  eexists. split; [apply NewGenerator_version0; exact Hnode |].
  set (g0 := {| layout := layout0; nodeID := node; lastTimestamp := 0;
                sequence := 0; versionShift := 61; timeShift := 16;
                nodeShift := 8 |}).
  assert (Hinv0 : inv g0).
  { split; [constructor; cbn; try reflexivity; lia |].
    left. cbn. unfold tickBound. lia. }
  split.
  - change (MaxTimestamp layout0) with (2 ^ 45 - 1).
    change (MaxSequence layout0) with 255.
    intros t s Ht Hs.
    rewrite encodeID_sum by (apply wf_update; [apply Hinv0 | exact Hs]).
    cbn [nodeID sequence setLastTimestamp setSequence g0].
    rewrite (Z.mod_small t) by lia.
    eexists. split; [apply Decode_fields; lia |]. cbn. auto.
  - intros n clock0 clock id g' rest Hc0 Hc Hcall Hmax.
    destruct (calls_trace n g0 clock0 Hinv0 Hc0) as [gs [_ [_ Hinv]]].
    pose proof (calls_sameParameters n g0 clock0) as [_ [Hn _]].
    destruct (NextID_step _ _ _ _ _ Hinv Hc Hcall)
      as [Hinv' [_ [-> [_ [_ [Hlay Hnode']]]]]].
    assert (Hl' : layout g' = layout0) by apply Hinv'.
    eexists. split; [apply Decode_idOf; [exact Hinv' |] |].
    + rewrite Hl'. exact Hmax.
    + cbn [DVersion DTimestamp DNodeID DSequence]. rewrite Hl'.
      repeat split. rewrite Hnode', Hn. reflexivity.
Qed.

Lemma Decode_NextID_roundtrip_witness :
  exists d,
    Decode (encodeID (setLastTimestamp (setSequence sampleGenerator 7) 1000)
                     1000) = Ok d /\
    DVersion d = 0 /\ DTimestamp d = 1000 /\ DNodeID d = 5 /\ DSequence d = 7.
Proof.
  assert (Hnode : 0 <= 5 <= MaxNodeID layout0) by (cbn; lia).
  destruct (Decode_NextID_roundtrip 0 layout0 5 eq_refl Hnode)
    as [g0 [Hnew [Hfields _]]].
  injection Hnew as <-.
  apply Hfields; cbn; lia.
Defined.

Section Waiting.

Lemma NextID_no_rollback g elapsed clock :
  currentTimestamp g elapsed <= MaxTimestamp (layout g) ->
  lastTimestamp g <= currentTimestamp g elapsed ->
  NextID g (elapsed :: clock) =
  assignSequence g (currentTimestamp g elapsed) clock.
Proof.
  intros Hok Hge. unfold NextID.
  destruct (Z.gtb_spec (currentTimestamp g elapsed) (MaxTimestamp (layout g)));
    [lia |].
  rewrite waitRollback_done by exact Hge. reflexivity.
Qed.

Lemma NextID_rollback_blocks g elapsed clock :
  currentTimestamp g elapsed <= MaxTimestamp (layout g) ->
  currentTimestamp g elapsed < lastTimestamp g ->
  Forall (fun d => currentTimestamp g d < lastTimestamp g) clock ->
  NextID g (elapsed :: clock) = Blocked.
Proof.
  intros Hok Hlt Hall. unfold NextID.
  destruct (Z.gtb_spec (currentTimestamp g elapsed) (MaxTimestamp (layout g)));
    [lia |].
  rewrite waitRollback_blocks by assumption. reflexivity.
Qed.


Lemma waitNextTimestamp_setSequence g s last clock :
  waitNextTimestamp (setSequence g s) last clock =
  waitNextTimestamp g last clock.
Proof.
  induction clock as [| e clock IH]; simpl; [reflexivity |].
  rewrite currentTimestamp_setSequence, IH. reflexivity.
Qed.

Lemma assignSequence_exhausted g clock :
  nextSequence g = 0 ->
  assignSequence g (lastTimestamp g) clock =
  match waitNextTimestamp g (lastTimestamp g) clock with
  | None => Blocked
  | Some (timestamp, clock') => emit (setSequence g 0) timestamp clock'
  end.
Proof.
  intros Hz. unfold assignSequence. rewrite Z.eqb_refl.
  fold (nextSequence g). rewrite Hz.
  cbn [sequence setSequence]. rewrite Z.eqb_refl.
  rewrite waitNextTimestamp_setSequence. reflexivity.
Qed.

End Waiting.



(** C4. [NextID] returns an error exactly when the tick of the first
    reading of the call is above [MaxTimestamp]; the error is the
    timestamp overflow, and the generator is left as it was. *)
Theorem NextID_fails_iff_overflow g elapsed clock :
  (MaxTimestamp (layout g) < currentTimestamp g elapsed <->
   exists e g' rest, NextID g (elapsed :: clock) = Failed e g' rest) /\
  (forall e g' rest,
     NextID g (elapsed :: clock) = Failed e g' rest ->
     e = ErrTimestampOverflow /\ g' = g /\
     lastTimestamp g' = lastTimestamp g /\ sequence g' = sequence g /\
     rest = clock).
Proof.
  split; [split |].
  - intros Hov. exists ErrTimestampOverflow, g, clock.
    apply NextID_overflow. exact Hov.
  - intros [e [g' [rest Hcall]]]. apply NextID_Failed in Hcall.
    destruct Hcall as [elapsed' [Heq [Hov _]]].
    injection Heq as <- _. exact Hov.
  - intros e g' rest Hcall. apply NextID_Failed in Hcall.
    destruct Hcall as [elapsed' [Heq [_ [-> ->]]]].
    injection Heq as _ <-. auto.
Qed.

(** The version bits of an ID returned with a tick that fits the time
    field are the generator's version. *)
Lemma extractVersion_idOf g :
  inv g -> lastTimestamp g <= MaxTimestamp (layout g) ->
  fst (extractVersion (idOf g)) = LVersion (layout g).
Proof.
  intros Hinv Hmax. pose proof (Decode_idOf g Hinv Hmax) as H.
  unfold Decode in H. destruct (extractVersion (idOf g)) as [v [l |]].
  - injection H as Hv _. exact Hv.
  - discriminate.
Qed.

(** C5. The top three bits of an ID returned by [NextID] are the version
    of the generator's layout when the tick encoded fits the time field.
    [NextID] compares only the first reading of a call with
    [MaxTimestamp]: a reading taken while waiting is encoded unchecked.
    Here the generator of node 5 has returned an ID at tick 3; the next
    call reads 2 ms after the epoch, waits, and reads 1 ms before the
    epoch.  The ID it returns has version bits 7, and [Decode] rejects
    it. *)
Theorem NextID_version_bits_lost_while_waiting :
  NewGenerator (mkConfig Version0 5) = Ok sampleGenerator /\
  fst (calls 2 sampleGenerator [3000000; 2000000; -1000000])
  = [197888; 18446744073709487360] /\
  Z.land (shr64 18446744073709487360 61) 7 = 7 /\
  LVersion (layout (snd (calls 2 sampleGenerator
                           [3000000; 2000000; -1000000]))) = Version0 /\
  Decode 18446744073709487360 = Err ErrInvalidVersion.
Proof. repeat split; vm_compute; reflexivity. Qed.

(** C6. [NewGenerator] fails with the unsupported-version error exactly
    when the version is not in the registry, with the invalid-node-ID
    error exactly when the version is registered and the node ID is above
    the layout's [MaxNodeID], and succeeds otherwise; for version 0 it
    succeeds up to node ID 255 and fails for 256; for version 99 it
    fails. *)
Theorem NewGenerator_validation cfg :
  (NewGenerator cfg = Err ErrInvalidVersion <->
   versionLayouts (CVersion cfg) = None) /\
  (NewGenerator cfg = Err ErrInvalidNodeID <->
   exists l, versionLayouts (CVersion cfg) = Some l /\
             MaxNodeID l < CNodeID cfg) /\
  ((exists g, NewGenerator cfg = Ok g) <->
   exists l, versionLayouts (CVersion cfg) = Some l /\
             CNodeID cfg <= MaxNodeID l) /\
  (forall node, node <= 255 ->
     exists g, NewGenerator (mkConfig Version0 node) = Ok g) /\
  NewGenerator (mkConfig Version0 256) = Err ErrInvalidNodeID /\
  (forall node, NewGenerator (mkConfig 99 node) = Err ErrInvalidVersion).
Proof.
  unfold NewGenerator.
  split; [| split; [| split; [| split; [| split]]]].
  - destruct (versionLayouts (CVersion cfg)) as [l |].
    + destruct (CNodeID cfg >? MaxNodeID l); split; discriminate.
    + split; reflexivity.
  - destruct (versionLayouts (CVersion cfg)) as [l |].
    + destruct (Z.gtb_spec (CNodeID cfg) (MaxNodeID l)) as [Hgt | Hle]; split.
      * intros _. exists l. auto.
      * reflexivity.
      * discriminate.
      * intros [l' [H Hlt]]. injection H as <-. lia.
    + split; [discriminate | intros [l [H _]]; discriminate].
  - destruct (versionLayouts (CVersion cfg)) as [l |].
    + destruct (Z.gtb_spec (CNodeID cfg) (MaxNodeID l)) as [Hgt | Hle]; split.
      * intros [g H]. discriminate.
      * intros [l' [H Hle]]. injection H as <-. lia.
      * intros _. exists l. auto.
      * intros _. eexists. reflexivity.
    + split; [intros [g H]; discriminate | intros [l [H _]]; discriminate].
  - intros node Hnode. cbn [CVersion CNodeID].
    change (versionLayouts Version0) with (Some layout0). cbv iota beta.
    change (MaxNodeID layout0) with 255.
    destruct (Z.gtb_spec node 255); [lia |]. eexists. reflexivity.
  - reflexivity.
  - intros node. reflexivity.
Qed.

(** What [Decode] computes on any [uint64]: the version lookup decides
    between error and result, the fields are the masked shifts, and the
    time is the epoch plus tick times unit as long as that product fits
    an [int64] duration. *)
Lemma Decode_spec id :
  is_uint64 id ->
  (Decode id = Err ErrInvalidVersion <->
   versionLayouts (Z.land (shr64 id 61) 7) = None) /\
  (forall d, Decode id = Ok d ->
     exists l,
       versionLayouts (Z.land (shr64 id 61) 7) = Some l /\
       DVersion d = Z.land (shr64 id 61) 7 /\
       DTimestamp d =
         Z.land (shr64 id (SequenceBits l + NodeBits l)) (MaxTimestamp l) /\
       DNodeID d = Z.land (shr64 id (SequenceBits l)) (MaxNodeID l) /\
       DSequence d = Z.land id (MaxSequence l) /\
       (DTimestamp d * TimeUnit l < 2 ^ 63 ->
        DTime d = Epoch l + DTimestamp d * TimeUnit l)).
Proof.
  intros Hid.
  assert (Hv : Z.land (shr64 id 61) 7 = (id / 2 ^ 61) mod 2 ^ 3).
  { unfold shr64. rewrite Z.shiftr_div_pow2 by lia.
    change 7 with (Z.ones 3). apply Z.land_ones. lia. }
  rewrite Hv.
  destruct (Z.eq_dec ((id / 2 ^ 61) mod 2 ^ 3) Version0) as [E | N].
  - rewrite (Decode_version0 id E), E. split.
    + split; discriminate.
    + intros d H. apply Ok_inj in H. subst d. exists layout0.
      cbn [DVersion DTimestamp DNodeID DSequence DTime].
      change (SequenceBits layout0 + NodeBits layout0) with 16.
      change (SequenceBits layout0) with 8.
      change (MaxTimestamp layout0) with (Z.shiftl 1 45 - 1).
      change (MaxNodeID layout0) with (Z.shiftl 1 8 - 1).
      change (MaxSequence layout0) with (Z.shiftl 1 8 - 1).
      unfold shr64. rewrite !land_mask, !Z.shiftr_div_pow2 by lia.
      repeat split.
      change (TimeUnit layout0) with 1000000. intros Hfit.
      pose proof (Z.mod_pos_bound (id / 2 ^ 16) (2 ^ 45)).
      unfold Time.Add, mulInt64.
      rewrite (wrapInt64_small ((id / 2 ^ 16) mod 2 ^ 45))
        by (unfold is_int64; lia).
      rewrite wrapInt64_small by (unfold is_int64; lia). reflexivity.
  - rewrite (Decode_unregistered id N). split.
    + split; [intros _ | reflexivity]. apply versionLayouts_None. exact N.
    + intros d H. discriminate.
Qed.

(** C7. [Decode] fails exactly when the version in the top three bits is
    not registered and otherwise returns the masked fields ([Decode_spec]);
    the time it returns is the epoch plus tick times unit only while that
    product fits an [int64] duration.  The ID [2^60] has version 0 and
    tick [2^44], within [MaxTimestamp]; the duration [2^44] ms wraps
    around, and the time returned lies before the epoch. *)
Theorem Decode_time_wraps_past_int64 :
  exists d,
    Decode (2 ^ 60) = Ok d /\
    DVersion d = Version0 /\
    DTimestamp d = 2 ^ 44 /\ DTimestamp d <= MaxTimestamp layout0 /\
    DTime d = Epoch layout0 - 854558029293551616 /\
    DTime d <> Epoch layout0 + DTimestamp d * TimeUnit layout0.
Proof.
  eexists. split; [vm_compute; reflexivity |].
  cbn [DVersion DTimestamp DTime].
  repeat split; vm_compute; discriminate.
Qed.

(** C8. The registry's entry for version 0: field widths 3, 45, 8 and 8,
    which sum to 64; one millisecond per tick; epoch
    2026-01-01T00:00:00Z; and maxima that are the all-ones values of the
    node, sequence and time widths. *)
Theorem versionLayouts_version0 :
  versionLayouts Version0 = Some layout0 /\
  LVersion layout0 = 0 /\
  VersionBits layout0 = 3 /\ TimeBits layout0 = 45 /\
  NodeBits layout0 = 8 /\ SequenceBits layout0 = 8 /\
  VersionBits layout0 + TimeBits layout0 + NodeBits layout0
    + SequenceBits layout0 = 64 /\
  TimeUnit layout0 = Time.Millisecond /\
  Time.Millisecond = 1000000 * Time.Nanosecond /\
  Epoch layout0 = Time.Date 2026 1 1 0 0 0 0 /\
  Epoch layout0 = 1767225600 * Time.Second /\
  MaxNodeID layout0 = 2 ^ NodeBits layout0 - 1 /\
  MaxNodeID layout0 = 255 /\
  MaxSequence layout0 = 2 ^ SequenceBits layout0 - 1 /\
  MaxSequence layout0 = 255 /\
  MaxTimestamp layout0 = 2 ^ TimeBits layout0 - 1 /\
  MaxTimestamp layout0 = 35184372088831.
Proof. repeat split. Qed.

(** C9. [NewGenerator] starts the sequence within [0, MaxSequence];
    a call of [NextID] that returns keeps it there and changes neither
    the layout, the node ID nor the three shifts; a call that fails
    changes nothing; so the sequence of a generator is within
    [0, MaxSequence] in every state it reaches. *)
Theorem Generator_sequence_bounded :
  (forall cfg g,
     NewGenerator cfg = Ok g ->
     0 <= sequence g <= MaxSequence (layout g)) /\
  (forall g clock id g' rest,
     0 <= sequence g <= MaxSequence (layout g) ->
     NextID g clock = Returned id g' rest ->
     0 <= sequence g' <= MaxSequence (layout g') /\
     layout g' = layout g /\ nodeID g' = nodeID g /\
     versionShift g' = versionShift g /\ timeShift g' = timeShift g /\
     nodeShift g' = nodeShift g) /\
  (forall g clock e g' rest,
     NextID g clock = Failed e g' rest -> g' = g) /\
  (forall g, reachable g -> 0 <= sequence g <= MaxSequence (layout g)).
Proof.
  split; [| split; [| split]].
  - intros cfg g H. apply NewGenerator_Ok in H. destruct H as [_ [_ ->]].
    cbn. lia.
  - intros g clock id g' rest Hseq Hcall.
    pose proof (NextID_sameParameters _ _ _ _ _ Hcall) as Hsame.
    split; [| exact Hsame].
    destruct Hsame as [Hl _]. rewrite Hl.
    apply NextID_Returned in Hcall.
    destruct Hcall
      as [elapsed [clock1 [e [t [s [_ [_ [_ [_ [-> [_ Hcase]]]]]]]]]]].
    cbn [sequence setLastTimestamp setSequence].
    destruct Hcase as [[_ ->] | [_ [-> _]]]; [lia |].
    unfold nextSequence. apply land_bounds; [| lia].
    apply wrap64_range.
  - intros g clock e g' rest Hcall. apply NextID_Failed in Hcall.
    destruct Hcall as [elapsed [_ [_ [_ ->]]]]. reflexivity.
  - intros g Hreach. apply reachable_inv in Hreach.
    destruct Hreach as [[Hl _ Hs _ _ _] _]. rewrite Hl.
    change (MaxSequence layout0) with 255. exact Hs.
Qed.

(** C10. [Decode] checks nothing but the version: on a [uint64] it
    succeeds exactly when the top three bits hold a registered version,
    which with this registry means every ID below [2^61], returned by a
    generator or not; [Decode 0] is version 0, tick 0, node 0, sequence 0
    at the epoch of version 0. *)
Theorem Decode_checks_version_only id :
  is_uint64 id ->
  ((exists d, Decode id = Ok d) <->
   versionLayouts (fst (extractVersion id)) <> None) /\
  ((exists d, Decode id = Ok d) <-> id < 2 ^ 61) /\
  (Decode id = Err ErrInvalidVersion <-> 2 ^ 61 <= id) /\
  Decode 0 = Ok {| DVersion := Version0; DTimestamp := 0; DNodeID := 0;
                   DSequence := 0; DTime := Epoch layout0 |}.
Proof.
  intros Hid. unfold is_uint64 in Hid.
  assert (Htop : (id / 2 ^ 61) mod 2 ^ 3 = Version0 <-> id < 2 ^ 61).
  { assert (0 <= id / 2 ^ 61 < 2 ^ 3).
    { split; [apply Z.div_pos; lia |].
      apply Z.div_lt_upper_bound; lia. }
    rewrite Z.mod_small by lia. unfold Version0. split; intros H'.
    - destruct (Z.lt_ge_cases id (2 ^ 61)) as [Hlt | Hge]; [exact Hlt |].
      assert (1 <= id / 2 ^ 61) by (apply Z.div_le_lower_bound; lia). lia.
    - apply Z.div_small. lia. }
  rewrite extractVersion_eq. cbn [fst].
  destruct (Z.eq_dec ((id / 2 ^ 61) mod 2 ^ 3) Version0) as [E | N].
  - rewrite (Decode_version0 id E), E.
    assert (Hlt : id < 2 ^ 61) by (apply Htop; exact E).
    assert (Hex : exists d,
               Ok {| DVersion := Version0;
                     DTimestamp := (id / 2 ^ 16) mod 2 ^ 45;
                     DNodeID := (id / 2 ^ 8) mod 2 ^ 8;
                     DSequence := id mod 2 ^ 8;
                     DTime := Time.Add (Epoch layout0)
                                (mulInt64
                                   (wrapInt64 ((id / 2 ^ 16) mod 2 ^ 45))
                                   (TimeUnit layout0)) |} = Ok d)
      by (eexists; reflexivity).
    split; [| split; [| split]].
    + split; [intros _; discriminate | intros _; exact Hex].
    + split; [intros _; exact Hlt | intros _; exact Hex].
    + split; [discriminate | lia].
    + reflexivity.
  - rewrite (Decode_unregistered id N).
    assert (Hge : 2 ^ 61 <= id).
    { destruct (Z.lt_ge_cases id (2 ^ 61)) as [Hlt | Hge]; [| exact Hge].
      apply Htop in Hlt. contradiction. }
    apply versionLayouts_None in N.
    split; [| split; [| split]].
    + split; [intros [d H]; discriminate | intros H; contradiction].
    + split; [intros [d H]; discriminate | lia].
    + split; [intros _; exact Hge | reflexivity].
    + reflexivity.
Qed.

Lemma Decode_checks_version_only_witness :
  (exists d, Decode 12345 = Ok d) <-> 12345 < 2 ^ 61.
Proof.
  assert (H : is_uint64 12345) by (unfold is_uint64; lia).
  exact (proj1 (proj2 (Decode_checks_version_only 12345 H))).
Defined.

(** ** Further properties of the clock reading *)

(** X1. Under the version-0 layout [currentTimestamp] truncates a reading
    at or after the epoch to whole ticks, which never exceed
    [MaxTimestamp]; later readings give later or equal ticks; and the tick
    is above [MaxTimestamp] exactly when the reading lies a whole tick or
    more before the epoch. *)
Theorem currentTimestamp_truncates g elapsed :
  reachable g -> is_int64 elapsed ->
  (0 <= elapsed ->
   currentTimestamp g elapsed * TimeUnit (layout g) <= elapsed
     < (currentTimestamp g elapsed + 1) * TimeUnit (layout g) /\
   0 <= currentTimestamp g elapsed <= MaxTimestamp (layout g)) /\
  (forall later,
     is_int64 later -> 0 <= elapsed <= later ->
     currentTimestamp g elapsed <= currentTimestamp g later) /\
  (MaxTimestamp (layout g) < currentTimestamp g elapsed <->
   elapsed <= - TimeUnit (layout g)).
Proof.
  intros Hreach He. apply reachable_inv in Hreach.
  destruct Hreach as [[Hl _ _ _ _ _] _].
  pose proof (currentTimestamp_cases g elapsed Hl He) as Hcases.
  rewrite Hl. change (TimeUnit layout0) with 1000000.
  change (MaxTimestamp layout0) with (2 ^ 45 - 1).
  unfold is_int64 in He.
  split; [| split].
  - intros Hpos.
    destruct Hcases as [[_ ->] | [[? _] | [? _]]]; try lia.
    pose proof (div_tickBound elapsed) as Hq. unfold tickBound in Hq.
    pose proof (Z.div_mod elapsed 1000000) as Hdm.
    pose proof (Z.mod_pos_bound elapsed 1000000). lia.
  - intros later Hlater [Hpos Hle].
    destruct Hcases as [[_ ->] | [[? _] | [? _]]]; try lia.
    destruct (currentTimestamp_cases g later Hl Hlater)
      as [[_ ->] | [[? _] | [? _]]]; try lia.
    apply Z.div_le_mono; lia.
  - destruct Hcases as [[Hpos ->] | [[Hs ->] | [Hn ->]]].
    + pose proof (div_tickBound elapsed) as Hq. unfold tickBound in Hq. lia.
    + lia.
    + pose proof (div_tickBound (- elapsed)) as Hq. unfold tickBound in Hq.
      lia.
Qed.

Lemma currentTimestamp_truncates_witness :
  MaxTimestamp (layout sampleGenerator)
    < currentTimestamp sampleGenerator (- 1000000)
  <-> - 1000000 <= - TimeUnit (layout sampleGenerator).
Proof.
  assert (Hreach : reachable sampleGenerator)
    by (apply (reach_new (mkConfig 0 5));
        [exact sample_uint8 | exact sample_uint64 | reflexivity]).
  assert (He : is_int64 (- 1000000)) by (unfold is_int64; lia).
  exact (proj2 (proj2 (currentTimestamp_truncates
                         sampleGenerator (- 1000000) Hreach He))).
Defined.

(** X2. A call of [NextID] returns the timestamp-overflow error exactly
    when its first reading lies a whole millisecond or more before the
    epoch: no reading at or after the epoch, however late, makes it
    fail. *)
Theorem NextID_fails_iff_before_epoch g elapsed clock :
  reachable g -> is_int64 elapsed ->
  (NextID g (elapsed :: clock) = Failed ErrTimestampOverflow g clock <->
   elapsed <= - 1000000) /\
  (0 <= elapsed ->
   forall e g' rest, NextID g (elapsed :: clock) <> Failed e g' rest).
Proof.
  intros Hreach He.
  assert (Hl : layout g = layout0) by (apply reachable_inv in Hreach;
                                       apply Hreach).
  assert (Hov : MaxTimestamp (layout g) < currentTimestamp g elapsed <->
                elapsed <= - 1000000).
  { rewrite Hl. change (MaxTimestamp layout0) with (2 ^ 45 - 1).
    unfold is_int64 in He.
    destruct (currentTimestamp_cases g elapsed Hl He)
      as [[Hpos ->] | [[Hs ->] | [Hn ->]]].
    - pose proof (div_tickBound elapsed) as Hq. unfold tickBound in Hq. lia.
    - lia.
    - pose proof (div_tickBound (- elapsed)) as Hq. unfold tickBound in Hq.
      lia. }
  split; [split |].
  - intros Hcall. apply NextID_Failed in Hcall.
    destruct Hcall as [e' [Heq [Hgt _]]]. injection Heq as <-.
    apply Hov. exact Hgt.
  - intros Hle. apply NextID_overflow. apply Hov. exact Hle.
  - intros H0 e g' rest Hcall. apply NextID_Failed in Hcall.
    destruct Hcall as [e' [Heq [Hgt _]]]. injection Heq as <- _.
    apply Hov in Hgt. lia.
Qed.

Lemma NextID_fails_iff_before_epoch_witness :
  NextID sampleGenerator [- 1000000; 5000000]
  = Failed ErrTimestampOverflow sampleGenerator [5000000]
  <-> - 1000000 <= - 1000000.
Proof.
  assert (Hreach : reachable sampleGenerator)
    by (apply (reach_new (mkConfig 0 5));
        [exact sample_uint8 | exact sample_uint64 | reflexivity]).
  assert (He : is_int64 (- 1000000)) by (unfold is_int64; lia).
  exact (proj1 (NextID_fails_iff_before_epoch
                  sampleGenerator (- 1000000) [5000000] Hreach He)).
Defined.

(** ** When a call returns, and when it waits *)

Section Progress.

Variable g : Generator.

Let past (d : Time.Duration) : Prop :=
  lastTimestamp g < currentTimestamp g d.

Lemma waitRollback_finds clock : forall t,
  Exists past clock ->
  exists t' rest,
    waitRollback g t clock = Some (t', rest) /\
    (lastTimestamp g < t' \/ (t' = lastTimestamp g /\ Exists past rest)).
Proof.
  induction clock as [| d clock IH]; intros t Hex.
  - inversion Hex.
  - destruct (Z.lt_ge_cases t (lastTimestamp g)) as [Hlt | Hge].
    + rewrite waitRollback_step by exact Hlt.
      inversion Hex as [? ? Hd | ? ? Hc]; subst.
      * exists (currentTimestamp g d), clock. split.
        -- apply waitRollback_done. unfold past in Hd. lia.
        -- left. exact Hd.
      * apply IH. exact Hc.
    + exists t, (d :: clock). split.
      * apply waitRollback_done. exact Hge.
      * destruct (Z.eq_dec t (lastTimestamp g)) as [E | N];
          [right; auto | left; lia].
Qed.

Lemma waitNextTimestamp_finds clock :
  Exists past clock ->
  exists t' rest,
    waitNextTimestamp g (lastTimestamp g) clock = Some (t', rest) /\
    lastTimestamp g < t'.
Proof.
  induction clock as [| d clock IH]; intros Hex.
  - inversion Hex.
  - simpl.
    destruct (Z.leb_spec (currentTimestamp g d) (lastTimestamp g))
      as [Hle | Hgt].
    + inversion Hex as [? ? Hd | ? ? Hc]; subst.
      * unfold past in Hd. lia.
      * apply IH. exact Hc.
    + exists (currentTimestamp g d), clock. auto.
Qed.

Lemma assignSequence_past t clock :
  lastTimestamp g < t ->
  assignSequence g t clock = emit (setSequence g 0) t clock.
Proof.
  intros Hlt. unfold assignSequence.
  destruct (Z.eqb_spec t (lastTimestamp g)); [lia | reflexivity].
Qed.

Lemma assignSequence_same clock :
  nextSequence g <> 0 ->
  assignSequence g (lastTimestamp g) clock =
  emit (setSequence g (nextSequence g)) (lastTimestamp g) clock.
Proof.
  intros Hnz. unfold assignSequence. rewrite Z.eqb_refl.
  fold (nextSequence g). cbn [sequence setSequence].
  destruct (Z.eqb_spec (nextSequence g) 0); [contradiction | reflexivity].
Qed.

Lemma assignSequence_returns t clock :
  lastTimestamp g < t \/ (t = lastTimestamp g /\ Exists past clock) ->
  exists id g' rest, assignSequence g t clock = Returned id g' rest.
Proof.
  intros [Hlt | [-> Hex]].
  - rewrite assignSequence_past by exact Hlt.
    unfold emit. eexists _, _, _. reflexivity.
  - destruct (Z.eq_dec (nextSequence g) 0) as [Hz | Hnz].
    + rewrite (assignSequence_exhausted g clock Hz).
      destruct (waitNextTimestamp_finds clock Hex) as [t' [rest [-> _]]].
      unfold emit. eexists _, _, _. reflexivity.
    + rewrite assignSequence_same by exact Hnz.
      unfold emit. eexists _, _, _. reflexivity.
Qed.

End Progress.

(** X3. A call of [NextID] whose first tick is within [MaxTimestamp]
    returns an ID as soon as the clock has a reading whose tick is past
    [lastTimestamp]: the two waiting loops end. *)
Theorem NextID_returns_when_clock_advances g elapsed clock :
  currentTimestamp g elapsed <= MaxTimestamp (layout g) ->
  Exists (fun d => lastTimestamp g < currentTimestamp g d)
         (elapsed :: clock) ->
  exists id g' rest, NextID g (elapsed :: clock) = Returned id g' rest.
Proof.
  intros Hok Hex. unfold NextID.
  destruct (Z.gtb_spec (currentTimestamp g elapsed) (MaxTimestamp (layout g)));
    [lia |].
  inversion Hex as [? ? Hd | ? ? Hc]; subst.
  - rewrite waitRollback_done by lia.
    apply assignSequence_returns. left. exact Hd.
  - destruct (waitRollback_finds g clock (currentTimestamp g elapsed) Hc)
      as [t' [rest [-> Hcase]]].
    apply assignSequence_returns. exact Hcase.
Qed.

Lemma NextID_returns_when_clock_advances_witness :
  exists id g' rest,
    NextID (snd (calls 1 sampleGenerator [3000000]))
           [2000000; 3999999; 4000000] = Returned id g' rest.
Proof.
  apply NextID_returns_when_clock_advances.
  - vm_compute. discriminate.
  - apply Exists_cons_tl, Exists_cons_tl, Exists_cons_hd.
    vm_compute. reflexivity.
Defined.

(** X4. A call of [NextID] is left waiting only by a clock that has not
    moved past [lastTimestamp]: every reading it was given has a tick at
    or below it. *)
Theorem NextID_blocked_only_behind g clock :
  NextID g clock = Blocked ->
  Forall (fun d => currentTimestamp g d <= lastTimestamp g) clock.
Proof.
  unfold NextID. destruct clock as [| elapsed clock1]; [constructor |].
  destruct (Z.gtb_spec (currentTimestamp g elapsed) (MaxTimestamp (layout g)))
    as [Hov | Hok]; [discriminate |].
  destruct (waitRollback g (currentTimestamp g elapsed) clock1)
    as [[t clock2] |] eqn:Hroll.
  - intros Hblocked.
    assert (Hc2 : t = lastTimestamp g /\
                  Forall (fun d => currentTimestamp g d <= lastTimestamp g)
                         clock2).
    { unfold assignSequence in Hblocked.
      destruct (Z.eqb_spec t (lastTimestamp g)) as [E | N];
        [| discriminate].
      split; [exact E |].
      destruct (sequence _ =? 0); [| discriminate].
      destruct (waitNextTimestamp _ t clock2) as [[t' clock3] |] eqn:Hnext;
        [discriminate |].
      apply waitNextTimestamp_None in Hnext. subst t. exact Hnext. }
    destruct Hc2 as [-> Hc2].
    apply waitRollback_Some in Hroll.
    destruct Hroll as [[_ [Ht ->]] | [Hlt [pre [d [-> [Hpre [Ht _]]]]]]].
    + constructor; [lia | exact Hc2].
    + constructor; [lia |]. apply Forall_app. split.
      * eapply Forall_impl; [| exact Hpre]. intros a Ha. simpl in Ha. lia.
      * constructor; [lia | exact Hc2].
  - intros _. apply waitRollback_None in Hroll. destruct Hroll as [Hlt Hall].
    constructor; [lia |].
    eapply Forall_impl; [| exact Hall]. intros a Ha. simpl in Ha. lia.
Qed.

Lemma NextID_blocked_only_behind_witness :
  Forall (fun d => currentTimestamp
                     (snd (calls 1 sampleGenerator [3000000])) d
                   <= lastTimestamp (snd (calls 1 sampleGenerator [3000000])))
         [2000000; 1000000].
Proof.
  apply NextID_blocked_only_behind. reflexivity.
Defined.

Section OneReading.

Lemma app_cons_neq {A} (pre : list A) d rest : pre ++ d :: rest <> rest.
Proof.
  intros H. apply (f_equal (@length A)) in H.
  rewrite length_app in H. simpl in H. lia.
Qed.

Lemma app_cons_app_neq {A} (pre : list A) d pre' rest :
  pre ++ d :: pre' ++ rest <> rest.
Proof.
  intros H. apply (f_equal (@length A)) in H.
  rewrite length_app in H. simpl in H. rewrite length_app in H. lia.
Qed.

Lemma assignSequence_suffix g t clock id g' rest :
  assignSequence g t clock = Returned id g' rest ->
  exists pre, clock = pre ++ rest.
Proof.
  unfold assignSequence.
  destruct (t =? lastTimestamp g).
  - destruct (sequence _ =? 0).
    + destruct (waitNextTimestamp _ t clock) as [[t' clock'] |] eqn:Hnext;
        [| discriminate].
      unfold emit. intros H. injection H as _ _ <-.
      apply waitNextTimestamp_Some in Hnext.
      destruct Hnext as [pre [d [-> _]]].
      exists (pre ++ [d]). rewrite <- app_assoc. reflexivity.
    + unfold emit. intros H. injection H as _ _ <-. exists []. reflexivity.
  - unfold emit. intros H. injection H as _ _ <-. exists []. reflexivity.
Qed.

End OneReading.

(** X5. A call of [NextID] whose first tick is within [MaxTimestamp]
    returns after that one reading, without sleeping, exactly when the
    tick is not below [lastTimestamp] and the call does not find the
    sequence of the current tick exhausted. *)
Theorem NextID_returns_at_once_iff g elapsed clock :
  reachable g ->
  currentTimestamp g elapsed <= MaxTimestamp (layout g) ->
  ((exists id g', NextID g (elapsed :: clock) = Returned id g' clock) <->
   lastTimestamp g <= currentTimestamp g elapsed /\
   ~ (currentTimestamp g elapsed = lastTimestamp g /\
      sequence g = MaxSequence (layout g))).
Proof.
  intros Hreach Hok. apply reachable_inv in Hreach.
  destruct Hreach as [Hwf _].
  assert (Hmax : MaxSequence (layout g) = 255)
    by (rewrite (wf_layout g Hwf); reflexivity).
  rewrite Hmax.
  destruct (Z.lt_ge_cases (currentTimestamp g elapsed) (lastTimestamp g))
    as [Hlt | Hge].
  - split; [| lia]. intros [id [g' Hcall]]. exfalso.
    unfold NextID in Hcall.
    destruct (Z.gtb_spec (currentTimestamp g elapsed)
                         (MaxTimestamp (layout g))); [lia |].
    destruct (waitRollback g (currentTimestamp g elapsed) clock)
      as [[t clock2] |] eqn:Hroll; [| discriminate].
    apply waitRollback_Some in Hroll.
    destruct Hroll as [[Hge _] | [_ [pre [d [Hc _]]]]]; [lia |].
    apply assignSequence_suffix in Hcall. destruct Hcall as [pre' Hc2].
    rewrite Hc2 in Hc.
    apply (app_cons_app_neq pre d pre' clock). symmetry. exact Hc.
  - rewrite (NextID_no_rollback g elapsed clock Hok Hge).
    destruct (Z.eq_dec (currentTimestamp g elapsed) (lastTimestamp g))
      as [E | N].
    + rewrite E.
      destruct (nextSequence_cases g Hwf) as [[Hs Hn] | [Hs Hz]].
      * rewrite assignSequence_same
          by (rewrite Hn; destruct Hwf; lia).
        split; [intros _; lia |]. intros _. unfold emit.
        eexists _, _. reflexivity.
      * rewrite (assignSequence_exhausted g clock Hz).
        split; [| lia]. intros [id [g' Hcall]]. exfalso.
        destruct (waitNextTimestamp g (lastTimestamp g) clock)
          as [[t' clock'] |] eqn:Hnext; [| discriminate].
        unfold emit in Hcall. injection Hcall as _ _ Hrest.
        apply waitNextTimestamp_Some in Hnext.
        destruct Hnext as [pre [d [Hc _]]]. subst clock'.
        apply (app_cons_neq pre d clock). symmetry. exact Hc.
    + rewrite assignSequence_past by lia.
      split; [intros _; lia |]. intros _. unfold emit.
      eexists _, _. reflexivity.
Qed.

Lemma NextID_returns_at_once_iff_witness :
  (exists id g', NextID sampleGenerator [3000000; 0] = Returned id g' [0]) <->
  lastTimestamp sampleGenerator <= currentTimestamp sampleGenerator 3000000 /\
  ~ (currentTimestamp sampleGenerator 3000000 = lastTimestamp sampleGenerator
     /\ sequence sampleGenerator = MaxSequence (layout sampleGenerator)).
Proof.
  apply NextID_returns_at_once_iff.
  - apply (reach_new (mkConfig 0 5));
      [exact sample_uint8 | exact sample_uint64 | reflexivity].
  - vm_compute. discriminate.
Defined.

(** ** Runs as lists of states *)

Section States.

Lemma follows_trans a b c : follows a b -> follows b c -> follows a c.
Proof.
  intros [Hab Na] [Hbc Nb]. split.
  - eapply before_trans; eassumption.
  - congruence.
Qed.

(** The IDs of a run are the numbers [idOf] of its states, which follow
    one another and the initial state. *)
Lemma calls_states n : forall g clock,
  inv g -> Forall is_int64 clock ->
  fst (calls n g clock) = map idOf (states n g clock) /\
  StronglySorted follows (g :: states n g clock).
Proof.
  induction n as [| n IH]; intros g clock Hinv Hclock; simpl.
  - split; [reflexivity | constructor; constructor].
  - destruct (NextID g clock) as [id g' rest | e g' rest |] eqn:Hcall.
    + destruct (NextID_step _ _ _ _ _ Hinv Hclock Hcall)
        as [Hinv' [Hrest [Hid [Hlt [Hle [_ Hnode]]]]]].
      destruct (IH g' rest Hinv' Hrest) as [Hids Hsorted].
      destruct (calls n g' rest) as [ids g'']. simpl in *.
      split; [rewrite Hid, Hids; reflexivity |].
      assert (Hstep : follows g g') by (unfold follows, before; auto).
      constructor; [exact Hsorted |].
      constructor; [exact Hstep |].
      inversion Hsorted as [| ? ? _ Hall]; subst.
      eapply Forall_impl; [| exact Hall].
      intros x Hx. eapply follows_trans; eassumption.
    + apply NextID_Failed in Hcall.
      destruct Hcall as [elapsed [-> [_ [_ ->]]]].
      inversion Hclock; subst. apply IH; assumption.
    + split; [reflexivity | constructor; constructor].
Qed.

Lemma states_follow n g clock :
  inv g -> Forall is_int64 clock ->
  Forall (follows g) (states n g clock).
Proof.
  intros Hinv Hclock.
  destruct (calls_states n g clock Hinv Hclock) as [_ Hsorted].
  inversion Hsorted; assumption.
Qed.

Lemma nodeField_idOf g :
  inv g -> nodeField layout0 (idOf g) = nodeID g.
Proof.
  intros [[Hl Hn Hs Hv Ht Hns] Hr]. unfold nodeField, shr64.
  change (SequenceBits layout0) with 8.
  change (MaxNodeID layout0) with (Z.shiftl 1 8 - 1).
  rewrite land_mask, Z.shiftr_div_pow2 by lia.
  unfold idOf.
  replace ((lastTimestamp g mod 2 ^ 48) * 2 ^ 16 + nodeID g * 2 ^ 8
           + sequence g)
    with (sequence g
          + ((lastTimestamp g mod 2 ^ 48) * 2 ^ 8 + nodeID g) * 2 ^ 8)
    by lia.
  rewrite Z.div_add, Z.div_small by lia.
  rewrite Z.add_0_l, Z.add_comm, Z.mod_add by lia.
  apply Z.mod_small. lia.
Qed.

Lemma tick_low45_inj t1 t2 :
  tick_range t1 -> tick_range t2 ->
  t1 mod 2 ^ 45 = t2 mod 2 ^ 45 -> t1 = t2.
Proof.
  intros H1 H2.
  destruct (tick_low45 t1 H1) as [[B1 ->] | [B1 ->]];
    destruct (tick_low45 t2 H2) as [[B2 ->] | [B2 ->]];
    unfold tick_range, tickBound in *; lia.
Qed.

Lemma StronglySorted_filter {A} (R : A -> A -> Prop) (f : A -> bool) l :
  StronglySorted R l -> StronglySorted R (filter f l).
Proof.
  induction 1 as [| a l Hl IH Ha]; simpl; [constructor |].
  destruct (f a); [| exact IH].
  constructor; [exact IH |].
  rewrite Forall_forall in *. intros x Hx.
  apply filter_In in Hx. apply Ha. apply Hx.
Qed.

(** A strictly increasing list of integers of an interval is no longer
    than the interval. *)
Lemma StronglySorted_lt_length hi l : forall lo,
  StronglySorted Z.lt l -> Forall (fun x => lo <= x < hi) l ->
  Z.of_nat (length l) <= Z.max 0 (hi - lo).
Proof.
  induction l as [| a l IH]; intros lo Hs Hb; simpl length.
  - lia.
  - inversion Hs as [| ? ? Hs' Ha]; subst.
    inversion Hb as [| ? ? Hlo Hb']; subst.
    assert (Hb'' : Forall (fun x => a + 1 <= x < hi) l).
    { rewrite Forall_forall in *. intros x Hx.
      specialize (Ha x Hx). specialize (Hb' x Hx). lia. }
    specialize (IH (a + 1) Hs' Hb''). lia.
Qed.

Lemma states_fromEpoch n : forall g clock,
  inv g -> Forall fromEpoch clock ->
  Forall (fun s => 0 <= lastTimestamp s <= tickBound) (states n g clock).
Proof.
  induction n as [| n IH]; intros g clock Hinv Hclock; simpl.
  - constructor.
  - assert (Hint : Forall is_int64 clock).
    { eapply Forall_impl; [| exact Hclock]. intros a Ha. apply Ha. }
    destruct (NextID g clock) as [id g' rest | e g' rest |] eqn:Hcall.
    + destruct (NextID_step _ _ _ _ _ Hinv Hint Hcall) as [Hinv' _].
      apply NextID_Returned in Hcall.
      destruct Hcall
        as [elapsed [clock1 [e [t [s [_ [_ [Hreads [Ht [-> _]]]]]]]]]].
      destruct (reads_Forall _ _ _ _ Hreads Hclock) as [[He Hlate] Hrest].
      constructor; [| apply IH; assumption].
      cbn [lastTimestamp setLastTimestamp]. subst t.
      destruct (currentTimestamp_cases g e (wf_layout g (proj1 Hinv)) He)
        as [[Hp ->] | [[_ ->] | [Hn _]]].
      * apply div_tickBound. unfold is_int64 in He. lia.
      * unfold tickBound. lia.
      * lia.
    + apply NextID_Failed in Hcall.
      destruct Hcall as [elapsed [-> [_ [_ ->]]]].
      inversion Hclock; subst. apply IH; assumption.
    + constructor.
Qed.

Lemma top_bits_zero id :
  is_uint64 id -> ((id / 2 ^ 61) mod 2 ^ 3 = Version0 <-> id < 2 ^ 61).
Proof.
  unfold is_uint64. intros Hid.
  assert (0 <= id / 2 ^ 61 < 2 ^ 3).
  { split; [apply Z.div_pos; lia |]. apply Z.div_lt_upper_bound; lia. }
  rewrite Z.mod_small by lia. unfold Version0. split; intros H'.
  - destruct (Z.lt_ge_cases id (2 ^ 61)) as [Hlt | Hge]; [exact Hlt |].
    assert (1 <= id / 2 ^ 61) by (apply Z.div_le_lower_bound; lia). lia.
  - apply Z.div_small. lia.
Qed.

End States.

(** ** Further properties of runs and of the codec *)

(** X6. Two generators of version 0 with different node IDs never return
    the same ID, whatever their clocks read. *)
Theorem NextID_nodes_never_collide cfg1 cfg2 g1 g2 n1 n2 clock1 clock2 id :
  is_uint64 (CNodeID cfg1) -> is_uint64 (CNodeID cfg2) ->
  NewGenerator cfg1 = Ok g1 -> NewGenerator cfg2 = Ok g2 ->
  CNodeID cfg1 <> CNodeID cfg2 ->
  Forall is_int64 clock1 -> Forall is_int64 clock2 ->
  In id (fst (calls n1 g1 clock1)) ->
  ~ In id (fst (calls n2 g2 clock2)).
Proof.
  intros Hu1 Hu2 Hnew1 Hnew2 Hdiff Hc1 Hc2 Hin1 Hin2.
  pose proof (NewGenerator_wf _ _ Hu1 Hnew1) as Hinv1.
  pose proof (NewGenerator_wf _ _ Hu2 Hnew2) as Hinv2.
  assert (Hnode : forall cfg g n clock,
             NewGenerator cfg = Ok g -> inv g -> Forall is_int64 clock ->
             In id (fst (calls n g clock)) ->
             nodeField layout0 id = CNodeID cfg).
  { intros cfg g n clock Hnew Hinv Hc Hin.
    destruct (calls_states n g clock Hinv Hc) as [Hids _].
    rewrite Hids in Hin. apply in_map_iff in Hin.
    destruct Hin as [s [<- Hs]].
    pose proof (states_follow n g clock Hinv Hc) as Hall.
    rewrite Forall_forall in Hall.
    destruct (Hall s Hs) as [[_ [Hinvs _]] Hn].
    rewrite (nodeField_idOf s Hinvs), Hn.
    apply NewGenerator_Ok in Hnew. destruct Hnew as [_ [_ ->]].
    reflexivity. }
  apply Hdiff.
  rewrite <- (Hnode cfg1 g1 n1 clock1 Hnew1 Hinv1 Hc1 Hin1).
  apply (Hnode cfg2 g2 n2 clock2 Hnew2 Hinv2 Hc2 Hin2).
Qed.

Lemma NextID_nodes_never_collide_witness :
  ~ In 197888 (fst (calls 3 {| layout := layout0; nodeID := 6;
                               lastTimestamp := 0; sequence := 0;
                               versionShift := 61; timeShift := 16;
                               nodeShift := 8 |} sampleClock)).
Proof.
  assert (Hu6 : is_uint64 6) by (unfold is_uint64; lia).
  assert (Hdiff : CNodeID (mkConfig 0 5) <> CNodeID (mkConfig 0 6))
    by (cbn; lia).
  apply (NextID_nodes_never_collide
           (mkConfig 0 5) (mkConfig 0 6) sampleGenerator _ 4 3
           sampleClock sampleClock 197888
           sample_uint64 Hu6 eq_refl eq_refl Hdiff
           sampleClock_int64 sampleClock_int64).
  left. reflexivity.
Defined.

(** X7. IDs of version 0 sort by tick across generators: of two IDs
    returned by any two generators, the one encoded at the earlier tick
    is the smaller number, whatever the node IDs and sequences. *)
Theorem NextID_ids_sort_by_tick g1 g2 clock1 clock2 id1 id2 g1' g2' r1 r2 :
  reachable g1 -> reachable g2 ->
  Forall is_int64 clock1 -> Forall is_int64 clock2 ->
  NextID g1 clock1 = Returned id1 g1' r1 ->
  NextID g2 clock2 = Returned id2 g2' r2 ->
  lastTimestamp g1' < lastTimestamp g2' ->
  id1 < id2.
Proof.
  intros Hr1 Hr2 Hc1 Hc2 Hcall1 Hcall2 Hlt.
  apply reachable_inv in Hr1. apply reachable_inv in Hr2.
  destruct (NextID_step _ _ _ _ _ Hr1 Hc1 Hcall1) as [Hinv1 [_ [-> _]]].
  destruct (NextID_step _ _ _ _ _ Hr2 Hc2 Hcall2) as [Hinv2 [_ [-> _]]].
  destruct Hinv1 as [[_ Hn1 Hs1 _ _ _] Ht1].
  destruct Hinv2 as [[_ Hn2 Hs2 _ _ _] Ht2].
  pose proof (tick_low48_mono _ _ Ht1 Ht2 Hlt). unfold idOf. lia.
Qed.

Lemma NextID_ids_sort_by_tick_witness : 197888 < 263424.
Proof.
  assert (Hreach : reachable sampleGenerator)
    by (apply (reach_new (mkConfig 0 5));
        [exact sample_uint8 | exact sample_uint64 | reflexivity]).
  assert (Hc1 : Forall is_int64 [3000000])
    by (repeat constructor; unfold is_int64; lia).
  assert (Hc2 : Forall is_int64 [4000000])
    by (repeat constructor; unfold is_int64; lia).
  refine (NextID_ids_sort_by_tick
            sampleGenerator sampleGenerator [3000000] [4000000]
            197888 263424 _ _ [] [] Hreach Hreach Hc1 Hc2
            eq_refl eq_refl _).
  vm_compute. reflexivity.
Defined.

(** X8. [Decode] loses nothing: the fields of a decoded ID are within
    their layout's maxima, the ID is their sum at the layout's shifts, and
    so no other [uint64] decodes to the same version, tick, node ID and
    sequence. *)
Theorem Decode_fields_determine_id id d :
  is_uint64 id -> Decode id = Ok d ->
  DVersion d = Version0 /\
  0 <= DTimestamp d <= MaxTimestamp layout0 /\
  0 <= DNodeID d <= MaxNodeID layout0 /\
  0 <= DSequence d <= MaxSequence layout0 /\
  id = DTimestamp d * 2 ^ 16 + DNodeID d * 2 ^ 8 + DSequence d /\
  (forall id' d',
     is_uint64 id' -> Decode id' = Ok d' ->
     DTimestamp d' = DTimestamp d -> DNodeID d' = DNodeID d ->
     DSequence d' = DSequence d -> id' = id).
Proof.
  assert (Hshape : forall i r,
             is_uint64 i -> Decode i = Ok r ->
             DVersion r = Version0 /\
             0 <= DTimestamp r <= 2 ^ 45 - 1 /\
             0 <= DNodeID r <= 2 ^ 8 - 1 /\
             0 <= DSequence r <= 2 ^ 8 - 1 /\
             i = DTimestamp r * 2 ^ 16 + DNodeID r * 2 ^ 8 + DSequence r).
  { intros i r Hi Hdec.
    destruct (Z.eq_dec ((i / 2 ^ 61) mod 2 ^ 3) Version0) as [E | N];
      [| rewrite (Decode_unregistered i N) in Hdec; discriminate].
    rewrite (Decode_version0 i E) in Hdec. apply Ok_inj in Hdec. subst r.
    cbn [DVersion DTimestamp DNodeID DSequence].
    apply (top_bits_zero i Hi) in E. unfold is_uint64 in Hi.
    pose proof (Z.mod_pos_bound (i / 2 ^ 16) (2 ^ 45)).
    pose proof (Z.mod_pos_bound (i / 2 ^ 8) (2 ^ 8)).
    pose proof (Z.mod_pos_bound i (2 ^ 8)).
    repeat (split; [lia |]).
    assert (H16 : (i / 2 ^ 16) mod 2 ^ 45 = i / 2 ^ 16).
    { apply Z.mod_small. split; [apply Z.div_pos; lia |].
      apply Z.div_lt_upper_bound; lia. }
    rewrite H16.
    pose proof (Z.div_mod i (2 ^ 8)) as D8.
    pose proof (Z.div_mod (i / 2 ^ 8) (2 ^ 8)) as D16.
    rewrite Z.div_div in D16 by lia.
    change (2 ^ 8 * 2 ^ 8) with (2 ^ 16) in D16. lia. }
  intros Hid Hdec.
  destruct (Hshape id d Hid Hdec) as [Hv [Ht [Hn [Hs Hsum]]]].
  change (MaxTimestamp layout0) with (2 ^ 45 - 1).
  change (MaxNodeID layout0) with (2 ^ 8 - 1).
  change (MaxSequence layout0) with (2 ^ 8 - 1).
  repeat (split; [assumption |]).
  intros id' d' Hid' Hdec' Et En Es.
  destruct (Hshape id' d' Hid' Hdec') as [_ [_ [_ [_ Hsum']]]].
  rewrite Hsum', Hsum, Et, En, Es. reflexivity.
Qed.

Lemma Decode_fields_determine_id_witness :
  197889 = 3 * 2 ^ 16 + 5 * 2 ^ 8 + 1.
Proof.
  assert (Hid : is_uint64 197889) by (unfold is_uint64; lia).
  exact (proj1 (proj2 (proj2 (proj2 (proj2
           (Decode_fields_determine_id 197889 _ Hid eq_refl)))))).
Defined.

(** X9. When the clock reads at or after the epoch, the time [Decode]
    gives for an ID returned by [NextID] is the reading the ID was
    encoded from, rounded down to the millisecond. *)
Theorem Decode_time_of_NextID g clock id g' rest :
  reachable g -> Forall is_int64 clock ->
  Forall (fun e => 0 <= e) clock ->
  NextID g clock = Returned id g' rest ->
  exists pre e d,
    clock = pre ++ e :: rest /\
    Decode id = Ok d /\
    DTimestamp d = currentTimestamp g e /\
    DTime d <= Epoch (layout g) + e < DTime d + TimeUnit (layout g).
Proof.
  intros Hreach Hclock Hpos Hcall. apply reachable_inv in Hreach.
  destruct (NextID_step _ _ _ _ _ Hreach Hclock Hcall)
    as [Hinv' [_ [Hid [_ [_ [Hlay _]]]]]].
  apply NextID_Returned in Hcall.
  destruct Hcall
    as [elapsed [clock1 [e [t [s [_ [_ [Hreads [Ht [Hg' _]]]]]]]]]].
  destruct (reads_Forall _ _ _ _ Hreads Hclock) as [He _].
  destruct (reads_Forall _ _ _ _ Hreads Hpos) as [He0 _].
  assert (Hl : layout g = layout0) by apply Hreach.
  assert (Hlast : lastTimestamp g' = e / 1000000).
  { rewrite Hg'. cbn [lastTimestamp setLastTimestamp]. rewrite Ht.
    destruct (currentTimestamp_cases g e Hl He)
      as [[_ E] | [[? _] | [? _]]]; [exact E | lia | lia]. }
  pose proof (div_tickBound e) as Hq. unfold tickBound in Hq.
  unfold is_int64 in He.
  assert (Hmax : lastTimestamp g' <= MaxTimestamp (layout g')).
  { rewrite Hlay, Hl, Hlast.
    change (MaxTimestamp layout0) with (2 ^ 45 - 1). lia. }
  destruct Hreads as [pre Hpre].
  exists pre, e. eexists.
  split; [exact Hpre |].
  split; [rewrite Hid; apply (Decode_idOf g' Hinv' Hmax) |].
  cbn [DTimestamp DTime]. rewrite Hlay, Hl.
  change (TimeUnit layout0) with 1000000.
  split.
  - rewrite Hlast.
    destruct (currentTimestamp_cases g e Hl He)
      as [[_ E] | [[? _] | [? _]]]; [symmetry; exact E | lia | lia].
  - rewrite Hlast. unfold Time.Add, mulInt64.
    pose proof (Z.div_mod e 1000000) as Hdm.
    pose proof (Z.mod_pos_bound e 1000000).
    rewrite (wrapInt64_small (e / 1000000)) by (unfold is_int64; lia).
    rewrite wrapInt64_small by (unfold is_int64; lia). lia.
Qed.

Lemma Decode_time_of_NextID_witness :
  exists pre e d,
    [3999999; 7000000] = pre ++ e :: [7000000] /\
    Decode 197888 = Ok d /\
    DTimestamp d = currentTimestamp sampleGenerator e /\
    DTime d <= Epoch (layout sampleGenerator) + e
      < DTime d + TimeUnit (layout sampleGenerator).
Proof.
  assert (Hreach : reachable sampleGenerator)
    by (apply (reach_new (mkConfig 0 5));
        [exact sample_uint8 | exact sample_uint64 | reflexivity]).
  assert (Hc : Forall is_int64 [3999999; 7000000])
    by (repeat constructor; unfold is_int64; lia).
  assert (Hp : Forall (fun e => 0 <= e) [3999999; 7000000])
    by (repeat constructor; lia).
  exact (Decode_time_of_NextID sampleGenerator [3999999; 7000000]
           197888 _ [7000000] Hreach Hc Hp eq_refl).
Defined.

Section Capacity.

Lemma StronglySorted_strengthen {A} (R : A -> A -> Prop) (P : A -> Prop) l :
  StronglySorted R l -> Forall P l ->
  StronglySorted (fun a b => R a b /\ P a /\ P b) l.
Proof.
  induction 1 as [| a l Hl IH Ha]; intros HP; [constructor |].
  inversion HP as [| ? ? Pa Pl]; subst.
  constructor; [apply IH; exact Pl |].
  rewrite Forall_forall in *. intros x Hx. auto.
Qed.

Lemma calls_reachable n : forall g clock,
  reachable g -> Forall is_int64 clock ->
  reachable (snd (calls n g clock)).
Proof.
  induction n as [| n IH]; intros g clock Hreach Hclock; simpl.
  - exact Hreach.
  - destruct (NextID g clock) as [id g' rest | e g' rest |] eqn:Hcall.
    + assert (Hreach' : reachable g')
        by (eapply reach_returned; eassumption).
      destruct (NextID_step _ _ _ _ _ (reachable_inv _ Hreach) Hclock Hcall)
        as [_ [Hrest _]].
      specialize (IH g' rest Hreach' Hrest).
      destruct (calls n g' rest) as [ids g'']. exact IH.
    + assert (Hreach' : reachable g')
        by (eapply reach_failed; eassumption).
      apply NextID_Failed in Hcall.
      destruct Hcall as [elapsed [-> _]].
      inversion Hclock; subst. apply IH; assumption.
    + exact Hreach.
Qed.

End Capacity.

(** X10. A generator returns at most [MaxSequence + 1 = 256] IDs with the
    same timestamp field, however many calls are made and whatever the
    clock reads. *)
Theorem NextID_at_most_256_per_tick cfg g0 n clock t :
  is_uint64 (CNodeID cfg) -> NewGenerator cfg = Ok g0 ->
  Forall is_int64 clock ->
  (length (filter (fun id => (timestampField (layout g0) id =? t)%Z)
                  (fst (calls n g0 clock))) <= 256)%nat.
Proof.
  intros Hu Hnew Hclock.
  pose proof (NewGenerator_wf cfg g0 Hu Hnew) as Hinv0.
  rewrite (wf_layout g0 (proj1 Hinv0)).
  destruct (calls_states n g0 clock Hinv0 Hclock) as [-> Hsorted].
  pose proof (states_follow n g0 clock Hinv0 Hclock) as Hall.
  inversion Hsorted as [| ? ? Hsts _]; subst.
  rewrite filter_map_swap, length_map.
  set (keep := fun s => timestampField layout0 (idOf s) =? t).
  set (P := fun s => inv s /\ nodeID s = nodeID g0 /\
                     lastTimestamp s mod 2 ^ 45 = t).
  assert (HP : Forall P (filter keep (states n g0 clock))).
  { rewrite Forall_forall in *. intros s Hs.
    apply filter_In in Hs. destruct Hs as [Hs Hk].
    destruct (Hall s Hs) as [[_ [Hinvs _]] Hn].
    unfold P. split; [exact Hinvs | split; [exact Hn |]].
    unfold keep in Hk. apply Z.eqb_eq in Hk.
    rewrite (timestampField_idOf s Hinvs) in Hk. exact Hk. }
  pose proof (StronglySorted_strengthen _ P _
                (StronglySorted_filter follows keep _ Hsts) HP) as Hstrong.
  assert (Hseq : StronglySorted Z.lt
                   (map sequence (filter keep (states n g0 clock)))).
  { eapply StronglySorted_map; [| exact Hstrong].
    intros a b [[[_ [_ [Hlt Hle]]] _] [[Ha [Na Ta]] [Hb [Nb Tb]]]].
    assert (E : lastTimestamp a = lastTimestamp b).
    { apply tick_low45_inj; [apply Ha | apply Hb | congruence]. }
    unfold idOf in Hlt. rewrite E, Na, Nb in Hlt. lia. }
  assert (Hbound : Forall (fun x => 0 <= x < 256)
                     (map sequence (filter keep (states n g0 clock)))).
  { apply Forall_map. eapply Forall_impl; [| exact HP].
    intros s [[[_ _ Hs _ _ _] _] _]. lia. }
  pose proof (StronglySorted_lt_length 256 _ 0 Hseq Hbound) as Hlen.
  rewrite length_map in Hlen. lia.
Qed.

Lemma NextID_at_most_256_per_tick_witness :
  (length (filter (fun id => (timestampField (layout sampleGenerator) id =? 3)%Z)
                  (fst (calls 4 sampleGenerator sampleClock))) <= 256)%nat.
Proof.
  exact (NextID_at_most_256_per_tick (mkConfig 0 5) sampleGenerator 4
           sampleClock 3 sample_uint64 eq_refl sampleClock_int64).
Defined.

(** X11. The first call on a new generator returns after one reading
    taken less than a millisecond before the epoch or later.  Its ID
    carries the tick of that reading with sequence 0, except at tick 0,
    which [NewGenerator]'s initial [lastTimestamp] equals: there the
    first sequence is 1. *)
Theorem NextID_first_call cfg g0 elapsed clock :
  is_uint64 (CNodeID cfg) -> NewGenerator cfg = Ok g0 ->
  is_int64 elapsed -> - 1000000 < elapsed ->
  exists g',
    NextID g0 (elapsed :: clock)
    = Returned (currentTimestamp g0 elapsed * 2 ^ 16 + CNodeID cfg * 2 ^ 8
                + sequence g') g' clock /\
    lastTimestamp g' = currentTimestamp g0 elapsed /\
    sequence g' = (if currentTimestamp g0 elapsed =? 0 then 1 else 0).
Proof.
  intros Hu Hnew He Hlate.
  pose proof (NewGenerator_wf cfg g0 Hu Hnew) as [Hwf _].
  apply NewGenerator_Ok in Hnew. destruct Hnew as [_ [Hnode Hg0]].
  assert (Hl : layout g0 = layout0) by (rewrite Hg0; reflexivity).
  assert (Hlast : lastTimestamp g0 = 0) by (rewrite Hg0; reflexivity).
  assert (Hn : nodeID g0 = CNodeID cfg) by (rewrite Hg0; reflexivity).
  assert (Hnext : nextSequence g0 = 1) by (rewrite Hg0; reflexivity).
  assert (Htick : 0 <= currentTimestamp g0 elapsed <= tickBound).
  { destruct (currentTimestamp_cases g0 elapsed Hl He)
      as [[Hp ->] | [[_ ->] | [Hneg _]]].
    - apply div_tickBound. unfold is_int64 in He. lia.
    - unfold tickBound. lia.
    - lia. }
  unfold tickBound in Htick.
  rewrite NextID_no_rollback;
    [| rewrite Hl; change (MaxTimestamp layout0) with (2 ^ 45 - 1); lia
     | lia].
  destruct (Z.eqb_spec (currentTimestamp g0 elapsed) 0) as [E | N].
  - rewrite E.
    replace (assignSequence g0 0 clock)
      with (assignSequence g0 (lastTimestamp g0) clock)
      by (rewrite Hlast; reflexivity).
    rewrite assignSequence_same by lia.
    unfold emit.
    exists (setLastTimestamp (setSequence g0 (nextSequence g0))
                             (lastTimestamp g0)).
    split; [| split].
    + rewrite encodeID_sum
        by (apply wf_update; [exact Hwf | rewrite Hnext; lia]).
      cbn [nodeID sequence lastTimestamp setLastTimestamp setSequence].
      rewrite Hlast, Hn. change (0 mod 2 ^ 48) with 0. reflexivity.
    + cbn [lastTimestamp setLastTimestamp]. exact Hlast.
    + cbn [sequence setLastTimestamp setSequence]. exact Hnext.
  - rewrite assignSequence_past by lia.
    unfold emit.
    exists (setLastTimestamp (setSequence g0 0) (currentTimestamp g0 elapsed)).
    split; [| split].
    + rewrite encodeID_sum by (apply wf_update; [exact Hwf | lia]).
      cbn [nodeID sequence lastTimestamp setLastTimestamp setSequence].
      rewrite Z.mod_small by lia. rewrite Hn. reflexivity.
    + reflexivity.
    + reflexivity.
Qed.

Lemma NextID_first_call_witness :
  exists g',
    NextID sampleGenerator [999999]
    = Returned (currentTimestamp sampleGenerator 999999 * 2 ^ 16
                + 5 * 2 ^ 8 + sequence g') g' [] /\
    lastTimestamp g' = currentTimestamp sampleGenerator 999999 /\
    sequence g' = (if currentTimestamp sampleGenerator 999999 =? 0
                   then 1 else 0).
Proof.
  assert (He : is_int64 999999) by (unfold is_int64; lia).
  assert (Hlate : - 1000000 < 999999) by lia.
  exact (NextID_first_call (mkConfig 0 5) sampleGenerator 999999 []
           sample_uint64 eq_refl He Hlate).
Defined.

(** X12. Once a generator has encoded a tick above [MaxTimestamp], taken
    while waiting from a clock set before the epoch, it returns no further
    ID as long as the clock reads less than a millisecond before the
    epoch or later: every such call stays blocked. *)
Theorem NextID_blocked_after_tick_above_max g n clock :
  reachable g -> MaxTimestamp (layout g) < lastTimestamp g ->
  Forall fromEpoch clock ->
  NextID g clock = Blocked /\ fst (calls n g clock) = [].
Proof.
  intros Hreach Hlast Hclock. apply reachable_inv in Hreach.
  destruct Hreach as [Hwf Hrange].
  assert (Hl : layout g = layout0) by apply Hwf.
  rewrite Hl in Hlast. change (MaxTimestamp layout0) with (2 ^ 45 - 1) in Hlast.
  assert (Hlow : forall e, fromEpoch e ->
                           currentTimestamp g e <= tickBound).
  { intros e [He Hlate].
    destruct (currentTimestamp_cases g e Hl He)
      as [[Hp ->] | [[_ ->] | [Hneg _]]].
    - apply div_tickBound. unfold is_int64 in He. lia.
    - unfold tickBound. lia.
    - lia. }
  assert (Hticks : Forall (fun e => currentTimestamp g e < lastTimestamp g)
                          clock).
  { eapply Forall_impl; [| exact Hclock]. intros e He.
    specialize (Hlow e He). unfold tickBound in Hlow. lia. }
  assert (Hblocked : NextID g clock = Blocked).
  { destruct clock as [| e c]; [reflexivity |].
    inversion Hticks as [| ? ? He Hc]; subst.
    inversion Hclock as [| ? ? Hfe _]; subst.
    apply NextID_rollback_blocks; [| exact He | exact Hc].
    specialize (Hlow e Hfe). unfold tickBound in Hlow.
    rewrite Hl. change (MaxTimestamp layout0) with (2 ^ 45 - 1). lia. }
  split; [exact Hblocked |].
  destruct n as [| n]; simpl; [reflexivity |].
  rewrite Hblocked. reflexivity.
Qed.

Lemma NextID_blocked_after_tick_above_max_witness :
  NextID (snd (calls 2 sampleGenerator [3000000; 2000000; - 1000000]))
         [5000000; 6000000] = Blocked.
Proof.
  assert (Hreach0 : reachable sampleGenerator)
    by (apply (reach_new (mkConfig 0 5));
        [exact sample_uint8 | exact sample_uint64 | reflexivity]).
  assert (Hc0 : Forall is_int64 [3000000; 2000000; - 1000000])
    by (repeat constructor; unfold is_int64; lia).
  pose proof (calls_reachable 2 sampleGenerator _ Hreach0 Hc0) as Hreach.
  assert (Hlast : MaxTimestamp
                    (layout (snd (calls 2 sampleGenerator
                                    [3000000; 2000000; - 1000000])))
                  < lastTimestamp
                      (snd (calls 2 sampleGenerator
                              [3000000; 2000000; - 1000000])))
    by (vm_compute; reflexivity).
  assert (Hc : Forall fromEpoch [5000000; 6000000])
    by (repeat constructor; unfold is_int64; lia).
  exact (proj1 (NextID_blocked_after_tick_above_max _ 1 _ Hreach Hlast Hc)).
Defined.

(** X13. When every reading lies less than a millisecond before the
    epoch or later, every ID of a run decodes, to the version and node ID
    the generator was made with. *)
Theorem NextID_ids_decode_from_epoch cfg g0 n clock :
  is_uint64 (CNodeID cfg) -> NewGenerator cfg = Ok g0 ->
  Forall fromEpoch clock ->
  Forall (fun id => exists d,
            Decode id = Ok d /\
            DVersion d = CVersion cfg /\ DNodeID d = CNodeID cfg)
         (fst (calls n g0 clock)).
Proof.
  intros Hu Hnew Hclock.
  pose proof (NewGenerator_wf cfg g0 Hu Hnew) as Hinv0.
  assert (Hint : Forall is_int64 clock).
  { eapply Forall_impl; [| exact Hclock]. intros a Ha. apply Ha. }
  destruct (calls_states n g0 clock Hinv0 Hint) as [-> _].
  pose proof (states_follow n g0 clock Hinv0 Hint) as Hall.
  pose proof (states_fromEpoch n g0 clock Hinv0 Hclock) as Hlow.
  apply NewGenerator_Ok in Hnew. destruct Hnew as [Hv [_ Hg0]].
  apply Forall_map. rewrite Forall_forall in *. intros s Hs.
  destruct (Hall s Hs) as [[_ [Hinvs _]] Hn].
  specialize (Hlow s Hs). unfold tickBound in Hlow.
  assert (Hl : layout s = layout0) by apply Hinvs.
  eexists. split.
  - apply (Decode_idOf s Hinvs). rewrite Hl.
    change (MaxTimestamp layout0) with (2 ^ 45 - 1). lia.
  - cbn [DVersion DNodeID]. rewrite Hl, Hn, Hv, Hg0. split; reflexivity.
Qed.

Lemma NextID_ids_decode_from_epoch_witness :
  Forall (fun id => exists d,
            Decode id = Ok d /\ DVersion d = 0 /\ DNodeID d = 5)
         (fst (calls 4 sampleGenerator sampleClock)).
Proof.
  assert (Hc : Forall fromEpoch sampleClock)
    by (repeat constructor; unfold is_int64; lia).
  exact (NextID_ids_decode_from_epoch (mkConfig 0 5) sampleGenerator 4
           sampleClock sample_uint64 eq_refl Hc).
Defined.

